(** * Chunking and use-case classification of the GitHub RAG ETL pipeline

    A shallow embedding of [packages/etl/src/code-chunker.ts] (class
    [CodeChunker]) and of the owner/name resolution done by the constructor of
    [GitHubRepository] in [packages/etl/src/github-repo.ts], followed by the
    properties the design document states about them.

    Conventions of the embedding:
    - a JavaScript string is the list of its UTF-16 code units ([jsstring]);
    - JavaScript numbers that hold line indices and sizes are integers ([Z]);
    - [String.prototype.toLowerCase], [path.basename] and [path.extname] are
      library functions outside the repository: the development is parametric
      in them (class [JsHost]), and [posixHost] is one concrete host used to
      run the model on examples;
    - the regular expressions of the source are terms of [regex], run by a
      backtracking matcher that follows the ECMAScript semantics for the
      constructs the source uses;
    - chunk ids ([uuidv4()], fresh random tokens) are not part of the model. *)

From Stdlib Require Import String Ascii ZArith NArith List Bool Lia.
Import ListNotations.

(** ** JavaScript strings *)

Definition jschar := N.
Definition jsstring := list jschar.

(** A string literal of the source (ASCII only). *)
Definition lit (s : string) : jsstring :=
  map N_of_ascii (list_ascii_of_string s).

(** The code unit of a one-character literal. *)
Definition chr (a : ascii) : jschar := N_of_ascii a.

Definition nl : jschar := 10%N.

(** [a === b] on strings. *)
Fixpoint str_eqb (a b : jsstring) : bool :=
  match a, b with
  | [], [] => true
  | x :: a', y :: b' => N.eqb x y && str_eqb a' b'
  | _, _ => false
  end.

(** [s.startsWith(w)] *)
Fixpoint startsWith (s w : jsstring) {struct w} : bool :=
  match w, s with
  | [], _ => true
  | y :: w', x :: s' => N.eqb x y && startsWith s' w'
  | _ :: _, [] => false
  end.

(** [s.includes(w)] *)
Fixpoint includes (s w : jsstring) : bool :=
  startsWith s w ||
  match s with
  | [] => false
  | _ :: s' => includes s' w
  end.

(** [s.endsWith(w)] *)
Definition endsWith (s w : jsstring) : bool :=
  (length w <=? length s)%nat && str_eqb (skipn (length s - length w) s) w.

(** ECMAScript WhiteSpace and LineTerminator code points: what [trim] strips
    and what [\s] matches. *)
Definition isWhiteSpace (c : jschar) : bool :=
  ((9 <=? c) && (c <=? 13) || (c =? 32) || (c =? 160) || (c =? 5760)
   || (8192 <=? c) && (c <=? 8202) || (c =? 8232) || (c =? 8233)
   || (c =? 8239) || (c =? 8287) || (c =? 12288) || (c =? 65279))%N.

(** [\w] without the unicode and ignore-case flags: [A-Za-z0-9_]. *)
Definition isWordChar (c : jschar) : bool :=
  ((65 <=? c) && (c <=? 90) || (97 <=? c) && (c <=? 122)
   || (48 <=? c) && (c <=? 57) || (c =? 95))%N.

Fixpoint trimStart (s : jsstring) : jsstring :=
  match s with
  | c :: s' => if isWhiteSpace c then trimStart s' else s
  | [] => []
  end.

Definition trimEnd (s : jsstring) : jsstring := rev (trimStart (rev s)).

(** [s.trim()] *)
Definition trim (s : jsstring) : jsstring := trimEnd (trimStart s).

(** [s.split(sep)] for a one-character separator: never the empty array. *)
Fixpoint split (sep : jschar) (s : jsstring) : list jsstring :=
  match s with
  | [] => [[]]
  | c :: s' =>
      if N.eqb c sep then [] :: split sep s'
      else match split sep s' with
           | p :: ps => (c :: p) :: ps
           | [] => [[c]]
           end
  end.

(** [parts.join(sep)] *)
Fixpoint join (sep : jsstring) (parts : list jsstring) : jsstring :=
  match parts with
  | [] => []
  | [p] => p
  | p :: ps => p ++ sep ++ join sep ps
  end.

(** [s.replace(pat, rep)] with a string pattern: the first occurrence only. *)
Fixpoint replace (s pat rep : jsstring) : jsstring :=
  if startsWith s pat then rep ++ skipn (length pat) s
  else match s with
       | [] => []
       | c :: s' => c :: replace s' pat rep
       end.

(** [arr.pop()]: the last element ([None] for [undefined]) and the array
    that is left. *)
Definition pop {A : Type} (arr : list A) : option A * list A :=
  match rev arr with
  | [] => (None, [])
  | x :: r => (Some x, rev r)
  end.

(** [v || ''] for a string that may be [undefined]. *)
Definition orEmpty (v : option jsstring) : jsstring :=
  match v with
  | Some ((_ :: _) as s) => s
  | _ => []
  end.

(** [a || b] on strings: the empty string is falsy. *)
Definition orElse (a b : jsstring) : jsstring :=
  match a with
  | [] => b
  | _ => a
  end.

(** [lines.slice(a, b)] for [0 <= a]. *)
Definition slice {A : Type} (l : list A) (a b : Z) : list A :=
  firstn (Z.to_nat (b - a)) (skipn (Z.to_nat a) l).

(** ** Regular expressions

    The constructs the source's patterns use.  Quantifiers are greedy and
    alternation is ordered, as in ECMAScript; [*] and [+] are applied to
    character classes only, which is all the source does. *)

Inductive regex : Type :=
| RChar (c : jschar)                  (* a literal character *)
| RClass (p : jschar -> bool)         (* a character class *)
| RSeq (r1 r2 : regex)
| RAlt (r1 r2 : regex)                (* r1|r2 *)
| ROpt (r : regex)                    (* (?:r)? *)
| RStar (p : jschar -> bool)          (* [p]* *)
| RPlus (p : jschar -> bool)          (* [p]+ *)
| RGroup (r : regex)                  (* (r), capture group 1 *)
| RBol                                (* ^ without the m flag *)
| REol                                (* $ without the m flag *)
| REmpty.

(** What a successful match leaves: the rest of the input and capture 1. *)
Definition mstate : Type := jsstring * option jsstring.

(** Greedy iteration of a class, giving characters back one at a time. *)
Fixpoint star (p : jschar -> bool) (s : jsstring)
    (k : jsstring -> option mstate) : option mstate :=
  match s with
  | c :: s' =>
      if p c then
        match star p s' k with
        | Some x => Some x
        | None => k s
        end
      else k s
  | [] => k []
  end.

(** [rmatch n r s cap k]: match [r] at the front of [s] (a suffix of an input
    of length [n]) with capture [cap], then continue with [k]; [None] makes
    the caller backtrack. *)
Fixpoint rmatch (n : nat) (r : regex) (s : jsstring) (cap : option jsstring)
    (k : jsstring -> option jsstring -> option mstate) : option mstate :=
  match r with
  | RChar c =>
      match s with
      | c' :: s' => if N.eqb c' c then k s' cap else None
      | [] => None
      end
  | RClass p =>
      match s with
      | c' :: s' => if p c' then k s' cap else None
      | [] => None
      end
  | RSeq r1 r2 => rmatch n r1 s cap (fun s' cap' => rmatch n r2 s' cap' k)
  | RAlt r1 r2 =>
      match rmatch n r1 s cap k with
      | Some x => Some x
      | None => rmatch n r2 s cap k
      end
  | ROpt r1 =>
      match rmatch n r1 s cap k with
      | Some x => Some x
      | None => k s cap
      end
  | RStar p => star p s (fun s' => k s' cap)
  | RPlus p =>
      match s with
      | c' :: s' => if p c' then star p s' (fun s'' => k s'' cap) else None
      | [] => None
      end
  | RGroup r1 =>
      rmatch n r1 s cap
        (fun s' _ => k s' (Some (firstn (length s - length s') s)))
  | RBol => if Nat.eqb (length s) n then k s cap else None
  | REol => match s with [] => k [] cap | _ :: _ => None end
  | REmpty => k s cap
  end.

(** The match array of [RegExp.prototype.exec]: index, element 0 and
    element 1 ([None] when group 1 did not take part). *)
Record MatchResult : Type := mkMatch {
  m_index : nat;
  m_0 : jsstring;
  m_1 : option jsstring
}.

(** Try every start position from the left. *)
Fixpoint exec_from (n : nat) (r : regex) (s : jsstring) : option MatchResult :=
  match rmatch n r s None (fun s' cap => Some (s', cap)) with
  | Some (s', cap) =>
      Some (mkMatch (n - length s) (firstn (length s - length s') s) cap)
  | None =>
      match s with
      | [] => None
      | _ :: s' => exec_from n r s'
      end
  end.

(** [s.match(r)] for a pattern without the g flag. *)
Definition regex_match (s : jsstring) (r : regex) : option MatchResult :=
  exec_from (length s) r s.

(** [r.test(s)] *)
Definition regex_test (r : regex) (s : jsstring) : bool :=
  match regex_match s r with
  | Some _ => true
  | None => false
  end.

(** [s.match(/[p]/g)] for a single class: every matching character, or
    [None] ([null]) when there is none. *)
Definition match_all_class (p : jschar -> bool) (s : jsstring)
    : option (list jsstring) :=
  match filter p s with
  | [] => None
  | cs => Some (map (fun c => [c]) cs)
  end.

(** A literal word as a pattern. *)
Fixpoint rword (w : jsstring) : regex :=
  match w with
  | [] => REmpty
  | c :: w' => RSeq (RChar c) (rword w')
  end.

Definition rlit (s : string) : regex := rword (lit s).

(** [r1 r2 ... rn] and [r1|r2|...|rn]. *)
Definition rseq (rs : list regex) : regex := fold_right RSeq REmpty rs.

Fixpoint ralt (rs : list regex) : regex :=
  match rs with
  | [] => REmpty
  | [r] => r
  | r :: rs' => RAlt r (ralt rs')
  end.

(** ** Library functions the chunker calls

    [toLowerCase] is [String.prototype.toLowerCase]; [basename] and [extname]
    are those of Node's [path] module. *)

Class JsHost : Type := {
  toLowerCase : jsstring -> jsstring;
  basename : jsstring -> jsstring;
  extname : jsstring -> jsstring
}.

(** One concrete host, for running the model: lower-casing of the ASCII
    letters (what [toLowerCase] does on ASCII text), and the POSIX flavour of
    [path.basename] and [path.extname]. *)

Definition asciiLower (s : jsstring) : jsstring :=
  map (fun c => if ((65 <=? c) && (c <=? 90))%N then (c + 32)%N else c) s.

Definition slash : jschar := 47%N.
Definition dot : jschar := 46%N.

Fixpoint dropSlashes (s : jsstring) : jsstring :=
  match s with
  | c :: s' => if N.eqb c slash then dropSlashes s' else s
  | [] => []
  end.

Fixpoint untilSlash (s : jsstring) : jsstring :=
  match s with
  | c :: s' => if N.eqb c slash then [] else c :: untilSlash s'
  | [] => []
  end.

(** Trailing slashes are ignored; the result is what follows the last slash
    before them. *)
Definition posix_basename (p : jsstring) : jsstring :=
  rev (untilSlash (dropSlashes (rev p))).

Fixpoint untilDot (s : jsstring) : option jsstring :=
  match s with
  | c :: s' =>
      if N.eqb c dot then Some [c]
      else match untilDot s' with
           | Some e => Some (c :: e)
           | None => None
           end
  | [] => None
  end.

(** From the last dot of the base name to its end; empty when there is no
    dot, when the only dot starts the base name, and for [..]. *)
Definition posix_extname (p : jsstring) : jsstring :=
  let b := posix_basename p in
  match untilDot (rev b) with
  | None => []
  | Some e =>
      if Nat.eqb (length e) (length b) then []
      else if str_eqb b [dot; dot] then []
      else rev e
  end.

Definition posixHost : JsHost := {|
  toLowerCase := asciiLower;
  basename := posix_basename;
  extname := posix_extname
|}.

(** ** Data model ([packages/common/src/types/github.ts]) *)

Module Repo.
Record t : Type := mk {
  url : jsstring;
  owner : jsstring;
  name : jsstring;
  branch : option jsstring
}.
End Repo.
Definition GitHubRepositoryInfo : Type := Repo.t.

Module File.
Record t : Type := mk {
  path : jsstring;
  content : jsstring;
  language : option jsstring;
  size : Z
}.
End File.
Definition GitHubFile : Type := File.t.

Inductive ChunkType : Type := FILE | CLASS | FUNCTION | SUMMARY.

Inductive UseCase : Type := BUG_FIXING | CODE_GENERATION | EXPLANATION.

Module Meta.
Record t : Type := mk {
  repositoryInfo : GitHubRepositoryInfo;
  filePath : jsstring;
  language : option jsstring;
  startLine : option Z;
  endLine : option Z;
  symbolName : option jsstring
}.
End Meta.

(** A chunk without its [id], which is a fresh [uuidv4()] token. *)
Module Chunk.
Record t : Type := mk {
  content : jsstring;
  type : ChunkType;
  useCases : list UseCase;
  metadata : Meta.t
}.
End Chunk.
Definition CodeChunk : Type := Chunk.t.

Definition ChunkType_eqb (a b : ChunkType) : bool :=
  match a, b with
  | FILE, FILE | CLASS, CLASS | FUNCTION, FUNCTION | SUMMARY, SUMMARY => true
  | _, _ => false
  end.

Definition hasType (t : ChunkType) (c : CodeChunk) : bool :=
  ChunkType_eqb (Chunk.type c) t.

(** Class and function chunks. *)
Definition isSymbolChunk (c : CodeChunk) : bool :=
  hasType CLASS c || hasType FUNCTION c.

(** ** The patterns of [code-chunker.ts] *)

(** [/[\x00-\x08\x0B\x0C\x0E-\x1F\x7F]/] *)
Definition isNonPrintable (c : jschar) : bool :=
  ((c <=? 8) || (c =? 11) || (c =? 12) || (14 <=? c) && (c <=? 31)
   || (c =? 127))%N.

(** The nine [skipPatterns], in the order of the source. *)
Definition skipPatterns : list regex :=
  [ rlit ".git/";
    rlit "node_modules/";
    RSeq (rlit ".DS_Store") REol;
    RSeq (rlit ".env") REol;
    RSeq (rlit ".log") REol;
    RSeq (rlit ".lock") REol;
    RSeq (rlit "package-lock.json") REol;
    RSeq (rlit "yarn.lock") REol;
    RSeq (rlit "pnpm-lock.yaml") REol ].

(** [/(?:function|def|public|private|protected)?\s*(\w+)\s*\([^)]*\)\s*(?::\s*\w+)?\s*{?/] *)
Definition functionPattern : regex :=
  rseq [ ROpt (ralt [rlit "function"; rlit "def"; rlit "public";
                     rlit "private"; rlit "protected"]);
         RStar isWhiteSpace;
         RGroup (RPlus isWordChar);
         RStar isWhiteSpace;
         RChar (chr "(");
         RStar (fun c => negb (N.eqb c (chr ")")));
         RChar (chr ")");
         RStar isWhiteSpace;
         ROpt (rseq [RChar (chr ":"); RStar isWhiteSpace; RPlus isWordChar]);
         RStar isWhiteSpace;
         ROpt (RChar (chr "{")) ].

(** [/(?:class|interface)\s+(\w+)(?:\s+extends|\s+implements|\s*{)?/] *)
Definition classPattern : regex :=
  rseq [ ralt [rlit "class"; rlit "interface"];
         RPlus isWhiteSpace;
         RGroup (RPlus isWordChar);
         ROpt (ralt [ RSeq (RPlus isWhiteSpace) (rlit "extends");
                      RSeq (RPlus isWhiteSpace) (rlit "implements");
                      RSeq (RStar isWhiteSpace) (RChar (chr "{")) ]) ].

(** [/^\s*}\s*$/] *)
Definition closingBracePattern : regex :=
  rseq [ RBol; RStar isWhiteSpace; RChar (chr "}"); RStar isWhiteSpace; REol ].

(** [count > len * 0.1] for two lengths.  The product is a binary64 number;
    for a string shorter than [2^52] code units, which is every string an
    engine can hold, it never rounds across the integer [count]
    ([exceedsTenth_binary64_exact] below), so the comparison is the exact one,
    [len < 10 * count]. *)
Definition exceedsTenth (count len : nat) : bool :=
  (len <? 10 * count)%nat.

(** The same comparison computed as the engine does.  The literal [0.1] is
    the binary64 number [tenthMantissa * 2^-55]; [round53 n] rounds the
    number [n * 2^-55] to 53 significant bits, to nearest with ties to even,
    and returns it as a multiple of [2^-55] again. *)
Definition tenthMantissa : Z := 3602879701896397.

Definition round53 (n : Z) : Z :=
  let sh := (Z.log2 n - 52)%Z in
  if (sh <=? 0)%Z then n
  else
    let q := (n / 2 ^ sh)%Z in
    let r := (n mod 2 ^ sh)%Z in
    let half := (2 ^ (sh - 1))%Z in
    if (half <? r)%Z || ((r =? half)%Z && Z.odd q)
    then ((q + 1) * 2 ^ sh)%Z
    else (q * 2 ^ sh)%Z.

Definition exceedsTenth_binary64 (count len : nat) : bool :=
  (round53 (Z.of_nat len * tenthMantissa) <? Z.of_nat count * 2 ^ 55)%Z.

(** The open region of the boundary detector ([currentFunction]).  [name] is
    an element of a match array, hence possibly [undefined] for the runtime. *)
Module Region.
Record t : Type := mk {
  name : option jsstring;
  content : list jsstring;
  startLine : Z;
  endLine : Z;
  isClass : bool
}.
End Region.

(** ** [class CodeChunker] *)

Section CodeChunker.

Context {host : JsHost}.

(** [this.repoInfo] *)
Variable repoInfo : GitHubRepositoryInfo.

Definition isLikelyBinary (content : jsstring) : bool :=
  if includes content [0%N] then true
  else
    match match_all_class isNonPrintable content with
    | Some nonPrintable =>
        if exceedsTenth (length nonPrintable) (length content) then true
        else false
    | None => false
    end.

Definition shouldSkipFile (file : GitHubFile) : bool :=
  if str_eqb (trim (File.content file)) [] then true
  else if (2 * 1024 * 1024 <? File.size file)%Z then true
  else if isLikelyBinary (File.content file) then true
  else if existsb (fun pattern => regex_test pattern (File.path file))
            skipPatterns then true
  else false.

Definition programmingLanguages : list jsstring :=
  map lit [ "typescript"; "javascript"; "python"; "java"; "c_cpp";
            "csharp"; "go"; "ruby"; "php"; "swift"; "rust"; "kotlin" ]%string.

Definition isProgrammingFile (file : GitHubFile) : bool :=
  match File.language file with
  | None => false
  | Some [] => false
  | Some language => existsb (str_eqb language) programmingLanguages
  end.

Definition isTestFile (file : GitHubFile) : bool :=
  let fileName := toLowerCase (basename (File.path file)) in
  includes fileName (lit "test") ||
  includes fileName (lit "spec") ||
  includes (File.path file) (lit "test/") ||
  includes (File.path file) (lit "tests/") ||
  includes (File.path file) (lit "__tests__/").

Definition isDocFile (file : GitHubFile) : bool :=
  let fileName := toLowerCase (basename (File.path file)) in
  includes fileName (lit "readme") ||
  includes fileName (lit "documentation") ||
  includes fileName (lit "docs") ||
  str_eqb (extname (File.path file)) (lit ".md").

Definition isApiFile (file : GitHubFile) : bool :=
  let fileName := toLowerCase (basename (File.path file)) in
  includes fileName (lit "api") ||
  includes fileName (lit "interface") ||
  includes fileName (lit "contract") ||
  endsWith fileName (lit ".d.ts").

(** The value of [useCases] in [determineUseCases] after its three rules,
    when control reaches the test [useCases.length === 0]. *)
Definition fileRuleUseCases (file : GitHubFile) : list UseCase :=
  let useCases := [] in
  let fileName := toLowerCase (basename (File.path file)) in
  let useCases :=
    if negb (isTestFile file) && negb (isDocFile file)
    then useCases ++ [BUG_FIXING] else useCases in
  let useCases :=
    if isApiFile file || includes fileName (lit "example") || isTestFile file
    then useCases ++ [CODE_GENERATION] else useCases in
  let useCases :=
    if isDocFile file || isApiFile file ||
       includes (File.path file) (lit "public/")
    then useCases ++ [EXPLANATION] else useCases in
  useCases.

Definition determineUseCases (file : GitHubFile) : list UseCase :=
  let useCases := fileRuleUseCases file in
  if Nat.eqb (length useCases) 0
  then useCases ++ [BUG_FIXING; CODE_GENERATION; EXPLANATION]
  else useCases.

(** The value of [useCases] in [determineUseCasesForSymbol] after its three
    rules. *)
Definition symbolRuleUseCases (symbolName : jsstring)
    (chunkType : ChunkType) (file : GitHubFile) : list UseCase :=
  let lowerSymbolName := toLowerCase symbolName in
  let useCases := [] in
  let useCases :=
    if includes lowerSymbolName (lit "error") ||
       includes lowerSymbolName (lit "exception") ||
       includes lowerSymbolName (lit "handle") ||
       includes lowerSymbolName (lit "process") ||
       includes lowerSymbolName (lit "validate")
    then useCases ++ [BUG_FIXING] else useCases in
  let useCases :=
    if includes lowerSymbolName (lit "create") ||
       includes lowerSymbolName (lit "build") ||
       includes lowerSymbolName (lit "new") ||
       includes lowerSymbolName (lit "get") ||
       includes lowerSymbolName (lit "generate") ||
       startsWith lowerSymbolName (lit "to") ||
       startsWith lowerSymbolName (lit "from") ||
       ChunkType_eqb chunkType CLASS
    then useCases ++ [CODE_GENERATION] else useCases in
  let useCases :=
    if negb (startsWith lowerSymbolName (lit "_")) &&
       negb (includes lowerSymbolName (lit "internal")) &&
       negb (includes lowerSymbolName (lit "private")) &&
       (includes lowerSymbolName (lit "public") ||
        includes (File.path file) (lit "public") ||
        ChunkType_eqb chunkType CLASS)
    then useCases ++ [EXPLANATION] else useCases in
  useCases.

Definition determineUseCasesForSymbol (symbolName : jsstring)
    (chunkType : ChunkType) (file : GitHubFile) : list UseCase :=
  let useCases := symbolRuleUseCases symbolName chunkType file in
  if Nat.eqb (length useCases) 0
  then useCases ++ [BUG_FIXING; CODE_GENERATION; EXPLANATION]
  else useCases.

(** The README test of [createFileChunks]. *)
Definition isReadme (file : GitHubFile) : bool :=
  let fileName := basename (File.path file) in
  let fileExt := extname (File.path file) in
  str_eqb (toLowerCase fileName) (lit "readme.md") ||
  str_eqb (toLowerCase fileName) (lit "readme") ||
  (includes (toLowerCase fileName) (lit "readme") &&
   str_eqb fileExt (lit ".md")).

Definition createFileChunks (file : GitHubFile) : list CodeChunk :=
  let chunks := [] in
  let useCases := determineUseCases file in
  let chunks := chunks ++
    [ Chunk.mk (File.content file) FILE useCases
        (Meta.mk repoInfo (File.path file) (File.language file)
           None None None) ] in
  if isReadme file then
    chunks ++
    [ Chunk.mk (File.content file) SUMMARY [EXPLANATION]
        (Meta.mk repoInfo (File.path file) (File.language file)
           None None None) ]
  else chunks.

(** The chunk pushed for a finished region.  [None] stands for the
    [TypeError] that [determineUseCasesForSymbol] raises on an [undefined]
    name (at [symbolName.toLowerCase()]), before anything is pushed. *)
Definition regionChunk (file : GitHubFile) (currentFunction : Region.t)
    : option CodeChunk :=
  let chunkType := if Region.isClass currentFunction then CLASS else FUNCTION in
  match Region.name currentFunction with
  | None => None
  | Some name =>
      let useCases := determineUseCasesForSymbol name chunkType file in
      Some (Chunk.mk (join [nl] (Region.content currentFunction)) chunkType
              useCases
              (Meta.mk repoInfo (File.path file) (File.language file)
                 (Some (Region.startLine currentFunction))
                 (Some (Region.endLine currentFunction))
                 (Some name)))
  end.

(** The state of the scanning loop: [chunks] and [currentFunction]. *)
Definition scanState : Type := (list CodeChunk * option Region.t)%type.

(** One iteration of the loop over the lines, at index [i].  [inr chunks] is
    an exception caught by the enclosing [try]: the chunks pushed so far are
    what [createCodeChunks] returns. *)
Definition scanLine (file : GitHubFile) (i : Z) (line : jsstring)
    (st : scanState) : scanState + list CodeChunk :=
  let (chunks, currentFunction) := st in
  let functionMatch := regex_match line functionPattern in
  let classMatch := regex_match line classPattern in
  match currentFunction with
  | Some cur =>
      if (Region.isClass cur && str_eqb (trim line) (lit "}")) ||
         (negb (Region.isClass cur) && regex_test closingBracePattern line)
      then
        let cur := Region.mk (Region.name cur) (Region.content cur ++ [line])
                     (Region.startLine cur) i (Region.isClass cur) in
        match regionChunk file cur with
        | Some chunk => inl (chunks ++ [chunk], None)
        | None => inr chunks
        end
      else
        inl (chunks,
             Some (Region.mk (Region.name cur) (Region.content cur ++ [line])
                     (Region.startLine cur) (Region.endLine cur)
                     (Region.isClass cur)))
  | None =>
      match classMatch with
      | Some m => inl (chunks, Some (Region.mk (m_1 m) [line] i (-1) true))
      | None =>
          match functionMatch with
          | Some m => inl (chunks, Some (Region.mk (m_1 m) [line] i (-1) false))
          | None => inl (chunks, None)
          end
      end
  end.

(** [for (let i = ...; i < lines.length; i++)] over the lines that are left. *)
Fixpoint scanLines (file : GitHubFile) (i : Z) (lines : list jsstring)
    (st : scanState) : scanState + list CodeChunk :=
  match lines with
  | [] => inl st
  | line :: rest =>
      match scanLine file i line st with
      | inl st' => scanLines file (i + 1) rest st'
      | inr chunks => inr chunks
      end
  end.

Definition createCodeChunks (file : GitHubFile) : list CodeChunk :=
  let lines := split nl (File.content file) in
  match scanLines file 0 lines ([], None) with
  | inl (chunks, Some cur) =>
      let cur := Region.mk (Region.name cur) (Region.content cur)
                   (Region.startLine cur) (Z.of_nat (length lines) - 1)
                   (Region.isClass cur) in
      match regionChunk file cur with
      | Some chunk => chunks ++ [chunk]
      | None => chunks
      end
  | inl (chunks, None) => chunks
  | inr chunks => chunks
  end.

(** What one file adds to [chunks] in the loop of [processFiles]. *)
Definition processFile (chunks : list CodeChunk) (file : GitHubFile)
    : list CodeChunk :=
  if shouldSkipFile file then chunks
  else
    let chunks := chunks ++ createFileChunks file in
    if isProgrammingFile file then chunks ++ createCodeChunks file
    else chunks.

Definition processFiles (files : list GitHubFile) : list CodeChunk :=
  fold_left processFile files [].

End CodeChunker.

(** ** [class GitHubRepository]: the constructor's owner/name resolution

    The constructor keeps the object it is given and assigns [owner] and
    [name] on it; the result is [this.repoInfo] after these assignments. *)
Definition resolveRepoInfo (repoInfo : GitHubRepositoryInfo)
    : GitHubRepositoryInfo :=
  match Repo.owner repoInfo, Repo.name repoInfo with
  | _ :: _, _ :: _ => repoInfo
  | _, _ =>
      let urlParts := split slash (Repo.url repoInfo) in
      if (2 <=? length urlParts)%nat then
        let (popped, urlParts) := pop urlParts in
        let name := orEmpty popped in
        let (popped, urlParts) := pop urlParts in
        let owner := orEmpty popped in
        Repo.mk (Repo.url repoInfo)
          (orElse (Repo.owner repoInfo) owner)
          (orElse (Repo.name repoInfo) (replace name (lit ".git") []))
          (Repo.branch repoInfo)
      else repoInfo
  end.

(** ** Predicates used to state the properties *)

(** The lines of a file, as [createCodeChunks] splits it. *)
Definition fileLines (file : GitHubFile) : list jsstring :=
  split nl (File.content file).

(** A class or function chunk of the file at [path] with a line range inside
    [lines] whose text is exactly those lines. *)
Definition rangedChunk (path : jsstring) (lines : list jsstring)
    (c : CodeChunk) : Prop :=
  isSymbolChunk c = true /\
  Meta.filePath (Chunk.metadata c) = path /\
  exists s e : Z,
    Meta.startLine (Chunk.metadata c) = Some s /\
    Meta.endLine (Chunk.metadata c) = Some e /\
    (0 <= s <= e)%Z /\ (e < Z.of_nat (length lines))%Z /\
    Chunk.content c = join [nl] (slice lines s (e + 1)).

(** The open region at the start of iteration [i]: it began on an earlier
    line and holds every line from there up to [i], excluded. *)
Definition openRegionInv (lines : list jsstring) (i : Z)
    (cur : option Region.t) : Prop :=
  match cur with
  | None => True
  | Some r =>
      (0 <= Region.startLine r < i)%Z /\
      Region.content r = slice lines (Region.startLine r) i
  end.

(** The test that ends the open region [r] at [line]. *)
Definition closesRegion (r : Region.t) (line : jsstring) : bool :=
  (Region.isClass r && str_eqb (trim line) (lit "}")) ||
  (negb (Region.isClass r) && regex_test closingBracePattern line).

(** Patterns in which capture group 1 takes part in every match. *)
Fixpoint captures (r : regex) : bool :=
  match r with
  | RGroup _ => true
  | RSeq r1 r2 => captures r1 || captures r2
  | _ => false
  end.

(** Continuations that never drop a capture they are given. *)
Definition keepsCapture (k : jsstring -> option jsstring -> option mstate)
    : Prop :=
  forall (s : jsstring) (c : jsstring) (x : mstate),
    k s (Some c) = Some x -> snd x <> None.

(** ** Example inputs *)

Definition exampleRepo : GitHubRepositoryInfo :=
  Repo.mk (lit "https://github.com/octocat/hello") (lit "octocat")
    (lit "hello") None.

(** [function foo() {\n  return 1;\n}] *)
Definition fooSource : jsstring :=
  lit "function foo() {" ++ [nl] ++ lit "  return 1;" ++ [nl] ++ lit "}".

(** [class Bar {\n}\n] *)
Definition barSource : jsstring :=
  lit "class Bar {" ++ [nl] ++ lit "}" ++ [nl].

(** [function foo() {\n  return 1;]: the file stops before the closing brace. *)
Definition truncatedSource : jsstring :=
  lit "function foo() {" ++ [nl] ++ lit "  return 1;".

Definition fooFile : GitHubFile :=
  File.mk (lit "src/foo.ts") fooSource (Some (lit "typescript")) 32.

Definition barFile : GitHubFile :=
  File.mk (lit "src/bar.ts") barSource (Some (lit "typescript")) 14.

Definition truncatedFile : GitHubFile :=
  File.mk (lit "src/cut.js") truncatedSource (Some (lit "javascript")) 29.

Definition readmeFile : GitHubFile :=
  File.mk (lit "docs/README.md") (lit "# Hello") None 7.

(** The chunk the detector gives for [fooFile]. *)
Definition fooChunk : CodeChunk :=
  Chunk.mk fooSource FUNCTION [BUG_FIXING; CODE_GENERATION; EXPLANATION]
    (Meta.mk exampleRepo (lit "src/foo.ts") (Some (lit "typescript"))
       (Some 0%Z) (Some 2%Z) (Some (lit "foo"))).

(** A repository reference without owner and name. *)
Definition pagesRepo : GitHubRepositoryInfo :=
  Repo.mk (lit "https://github.com/octocat/octocat.github.io") [] [] None.

Definition cloneUrlRepo : GitHubRepositoryInfo :=
  Repo.mk (lit "https://github.com/octocat/hello.git") [] [] None.

(** ** Predicates on the symbol chunks of one file *)

(** The open region, if any, has a defined name. *)
Definition namedRegion (cur : option Region.t) : Prop :=
  match cur with
  | Some r => Region.name r <> None
  | None => True
  end.

(** [c1] ends on a line before the one [c2] starts on. *)
Definition chunkBefore (c1 c2 : CodeChunk) : Prop :=
  exists e s : Z,
    Meta.endLine (Chunk.metadata c1) = Some e /\
    Meta.startLine (Chunk.metadata c2) = Some s /\
    (e < s)%Z.

(** [c] ends on a line before [bound]. *)
Definition endsBefore (bound : Z) (c : CodeChunk) : Prop :=
  exists e : Z, Meta.endLine (Chunk.metadata c) = Some e /\ (e < bound)%Z.

(** The first line a later chunk can start on: the start of the open region,
    or the current line when no region is open. *)
Definition scanBound (i : Z) (cur : option Region.t) : Z :=
  match cur with
  | Some r => Region.startLine r
  | None => i
  end.

(** A line that is one closing brace with nothing but white space around
    it. *)
Definition loneBrace (line : jsstring) : Prop :=
  exists a b : jsstring,
    line = a ++ [chr "}"] ++ b /\
    forallb isWhiteSpace a = true /\ forallb isWhiteSpace b = true.

(** Patterns every match of which consumes the character [c]. *)
Fixpoint requiresChar (c : jschar) (r : regex) : bool :=
  match r with
  | RChar c' => N.eqb c' c
  | RSeq r1 r2 => requiresChar c r1 || requiresChar c r2
  | RAlt r1 r2 => requiresChar c r1 && requiresChar c r2
  | RGroup r1 => requiresChar c r1
  | _ => false
  end.

(** ** [GitHubRepository.getAllFilePaths] and [GitHubRepository.getFiles]

    What [fs.readdirSync(dir, { withFileTypes: true })] returns is a list of
    entries; an entry for which [isDirectory()] holds carries the entries of
    that directory.  Reading a file ([fs.readFileSync] followed by
    [fs.statSync]) gives its text and size, or throws ([None]).  [path.join]
    and [path.relative] are parameters, like the other functions of
    [path]. *)

#[warnings="-register-all"]
Inductive Dirent : Type :=
| DirentFile (name : jsstring)
| DirentDir (name : jsstring) (entries : list Dirent).

Definition direntName (entry : Dirent) : jsstring :=
  match entry with
  | DirentFile name => name
  | DirentDir name _ => name
  end.

(** [entry.name === '.git' || entry.name === 'node_modules' ||
    entry.name === 'dist'] *)
Definition isIgnoredName (name : jsstring) : bool :=
  str_eqb name (lit ".git") || str_eqb name (lit "node_modules") ||
  str_eqb name (lit "dist").

(** [ext === e] for a [case] label [e]. *)
Definition extIs (ext : jsstring) (e : string) : bool :=
  str_eqb ext (lit e).

(** The [switch (ext)] of [getFiles] with its [default] branch. *)
Definition detectLanguage (ext content : jsstring) : option jsstring :=
  if extIs ext ".ts" || extIs ext ".tsx" then Some (lit "typescript")
  else if extIs ext ".js" || extIs ext ".jsx" then Some (lit "javascript")
  else if extIs ext ".py" then Some (lit "python")
  else if extIs ext ".java" then Some (lit "java")
  else if extIs ext ".rb" then Some (lit "ruby")
  else if extIs ext ".go" then Some (lit "go")
  else if extIs ext ".rs" then Some (lit "rust")
  else if extIs ext ".c" || extIs ext ".cpp" || extIs ext ".cc" ||
          extIs ext ".h" || extIs ext ".hpp"
  then Some (lit "c_cpp")
  else if extIs ext ".cs" then Some (lit "csharp")
  else if extIs ext ".php" then Some (lit "php")
  else if extIs ext ".swift" then Some (lit "swift")
  else if extIs ext ".kt" || extIs ext ".kts" then Some (lit "kotlin")
  else if includes content (lit "<?php") then Some (lit "php")
  else if includes content (lit "<?xml") then Some (lit "xml")
  else if includes content (lit "<!DOCTYPE html>") ||
          includes content (lit "<html>")
  then Some (lit "html")
  else None.

(** The extensions the [switch] has a [case] for. *)
Definition caseExtensions : list jsstring :=
  map lit [ ".ts"; ".tsx"; ".js"; ".jsx"; ".py"; ".java"; ".rb"; ".go";
            ".rs"; ".c"; ".cpp"; ".cc"; ".h"; ".hpp"; ".cs"; ".php";
            ".swift"; ".kt"; ".kts" ]%string.

Section Repository.

Context {host : JsHost}.

(** [path.join] and [path.relative] *)
Variable pathJoin : jsstring -> jsstring -> jsstring.
Variable relative : jsstring -> jsstring -> jsstring.

(** [fs.readFileSync(filePath, 'utf-8')] and [fs.statSync(filePath).size] *)
Variable readFile : jsstring -> option (jsstring * Z).

(** One iteration of the loop of [getAllFilePaths] over the entries of
    [dirPath]; the recursive call on a directory runs the same loop over its
    entries, on the same [results] array. *)
Fixpoint visitEntry (dirPath : jsstring) (entry : Dirent)
    (results : list jsstring) {struct entry} : list jsstring :=
  let fullPath := pathJoin dirPath (direntName entry) in
  if isIgnoredName (direntName entry) then results
  else
    match entry with
    | DirentDir _ entries =>
        fold_left (fun results e => visitEntry fullPath e results)
          entries results
    | DirentFile _ => results ++ [fullPath]
    end.

Definition getAllFilePaths (dirPath : jsstring) (entries : list Dirent)
    (results : list jsstring) : list jsstring :=
  fold_left (fun results e => visitEntry dirPath e results) entries results.

(** The files [getAllFilePaths] is specified to list: those reached from
    [dirPath] through names that are not ignored. *)
Inductive Listed : jsstring -> list Dirent -> jsstring -> Prop :=
| Listed_file (dirPath : jsstring) (entries : list Dirent) (name : jsstring) :
    In (DirentFile name) entries -> isIgnoredName name = false ->
    Listed dirPath entries (pathJoin dirPath name)
| Listed_dir (dirPath : jsstring) (entries sub : list Dirent)
    (name p : jsstring) :
    In (DirentDir name sub) entries -> isIgnoredName name = false ->
    Listed (pathJoin dirPath name) sub p ->
    Listed dirPath entries p.

(** The body of the loop of [getFiles] over the filtered paths, with its
    [try]: a file that cannot be read is left out. *)
Definition readInto (localPath : jsstring) (files : list GitHubFile)
    (filePath : jsstring) : list GitHubFile :=
  match readFile filePath with
  | Some (content, size) =>
      let relativePath := relative localPath filePath in
      let ext := toLowerCase (extname filePath) in
      files ++
      [File.mk relativePath content (detectLanguage ext content) size]
  | None => files
  end.

(** [getFiles(extensions)] in a clone at [localPath] whose top directory
    holds [root]; [extensions] is [None] when the argument is left out. *)
Definition getFiles (localPath : jsstring) (root : list Dirent)
    (extensions : option (list jsstring)) : list GitHubFile :=
  let filePaths := getAllFilePaths localPath root [] in
  let filteredPaths :=
    match extensions with
    | Some exts =>
        filter (fun filePath => existsb (str_eqb (extname filePath)) exts)
          filePaths
    | None => filePaths
    end in
  fold_left (readInto localPath) filteredPaths [].

End Repository.

(** ** The indexing loop of [GitHubETL.processRepository]

    [indexDocuments] is the call [this.dbClient.indexDocuments(batch)]: from
    the state of the database it gives the number it resolves to and the
    next state, or throws ([None]), which [processRepository] rethrows. *)

Section IndexingLoop.

Variable Doc : Type.
Variable Db : Type.
Variable indexDocuments : Db -> list Doc -> option (Z * Db).

Definition batchSize : Z := 100.

(** [for (let i = ...; i < documents.length; i += batchSize)], at most
    [fuel] iterations. *)
Fixpoint indexLoop (fuel : nat) (documents : list Doc) (i : Z)
    (indexedCount : Z) (db : Db) : option (Z * Db) :=
  match fuel with
  | O => Some (indexedCount, db)
  | S fuel' =>
      if (i <? Z.of_nat (length documents))%Z then
        let batch := slice documents i (i + batchSize) in
        match indexDocuments db batch with
        | Some (result, db') =>
            indexLoop fuel' documents (i + batchSize)%Z
              (indexedCount + result)%Z db'
        | None => None
        end
      else Some (indexedCount, db)
  end.

(** The loop with as many iterations as it can need. *)
Definition indexAll (documents : list Doc) (db : Db) : option (Z * Db) :=
  indexLoop (length documents) documents 0 0 db.

(** The number of batches of a list of [n] documents, and the batches. *)
Definition batchCount (n : nat) : nat := (n + 99) / 100.

Definition batches (documents : list Doc) : list (list Doc) :=
  map (fun j => slice documents (100 * Z.of_nat j) (100 * Z.of_nat j + 100))
    (seq 0 (batchCount (length documents))).

(** Sending given batches one after the other, adding up the results, until
    a call throws. *)
Fixpoint sendBatches (bs : list (list Doc)) (indexedCount : Z) (db : Db)
    : option (Z * Db) :=
  match bs with
  | [] => Some (indexedCount, db)
  | batch :: bs' =>
      match indexDocuments db batch with
      | Some (result, db') => sendBatches bs' (indexedCount + result)%Z db'
      | None => None
      end
  end.

End IndexingLoop.

Arguments indexLoop {Doc Db} indexDocuments fuel documents i indexedCount db.
Arguments indexAll {Doc Db} indexDocuments documents db.
Arguments batches {Doc} documents.
Arguments sendBatches {Doc Db} indexDocuments bs indexedCount db.

(** ** The result of [VectorDBClient.indexDocuments]

    The count the method returns for [n] documents, from the body of the
    bulk response: its [errors] flag and, for each item, whether
    [item.index?.error] is truthy.  For an empty array the method returns 0
    before any request, which is also [indexedCountOf 0] of a response
    without errors. *)

Record BulkResponse : Type := mkBulkResponse {
  body_errors : bool;
  body_items : list bool
}.

Definition indexedCountOf (n : nat) (response : BulkResponse) : Z :=
  if body_errors response then
    let errors := filter (fun item => item) (body_items response) in
    (Z.of_nat n - Z.of_nat (length errors))%Z
  else Z.of_nat n.

(** ** Further sample inputs *)

Definition notesFile : GitHubFile :=
  File.mk (lit "docs/notes.txt")
    (lit "release notes" ++ nl :: lit "nothing to report")
    None 31.

(** An index that accepts every document of a batch. *)
Definition acceptAll (db : unit) (batch : list nat) : option (Z * unit) :=
  Some (indexedCountOf (length batch)
          (mkBulkResponse false (map (fun _ => false) batch)), db).

(** * Properties *)

(** ** Strings *)

Lemma str_eqb_eq (a b : jsstring) : str_eqb a b = true <-> a = b.
Proof.
  revert b; induction a as [|x a IH]; intros [|y b]; simpl;
    try (split; [discriminate | congruence]); try tauto.
  rewrite andb_true_iff, N.eqb_eq, IH.
  split; [intros [-> ->]; reflexivity | intros E; injection E; auto].
Qed.

Lemma str_eqb_refl (a : jsstring) : str_eqb a a = true.
Proof. apply str_eqb_eq; reflexivity. Qed.

Lemma trimStart_nil (s : jsstring) :
  trimStart s = [] <-> forallb isWhiteSpace s = true.
Proof.
  induction s as [|c s IH]; simpl; [tauto|].
  destruct (isWhiteSpace c); simpl; [exact IH|].
  split; discriminate.
Qed.

Lemma trimStart_snoc (s : jsstring) (x : jschar) :
  isWhiteSpace x = false -> trimStart (s ++ [x]) = trimStart s ++ [x].
Proof.
  intros Hx; induction s as [|c s IH]; simpl.
  - rewrite Hx; reflexivity.
  - destruct (isWhiteSpace c); [exact IH | reflexivity].
Qed.

Lemma trimEnd_cons (x : jschar) (s : jsstring) :
  isWhiteSpace x = false -> trimEnd (x :: s) = x :: trimEnd s.
Proof.
  intros Hx; unfold trimEnd; simpl.
  rewrite trimStart_snoc by assumption.
  rewrite rev_app_distr; reflexivity.
Qed.

Lemma forallb_rev_eq (p : jschar -> bool) (s : jsstring) :
  forallb p (rev s) = forallb p s.
Proof.
  induction s as [|c s IH]; simpl; [reflexivity|].
  rewrite forallb_app, IH; simpl.
  rewrite andb_true_r; apply andb_comm.
Qed.

Lemma trimEnd_nil (s : jsstring) :
  trimEnd s = [] <-> forallb isWhiteSpace s = true.
Proof.
  unfold trimEnd.
  rewrite <- (forallb_rev_eq isWhiteSpace s), <- trimStart_nil.
  split; intros H.
  - apply (f_equal (@rev _)) in H; rewrite rev_involutive in H; exact H.
  - rewrite H; reflexivity.
Qed.

Lemma trimStart_head (s : jsstring) :
  match trimStart s with
  | [] => True
  | c :: _ => isWhiteSpace c = false
  end.
Proof.
  induction s as [|c s IH]; simpl; [exact I|].
  destruct (isWhiteSpace c) eqn:E; [exact IH | exact E].
Qed.

(** [trim] leaves nothing exactly when the string is empty or made of white
    space only. *)
Lemma trim_nil (s : jsstring) :
  trim s = [] <-> forallb isWhiteSpace s = true.
Proof.
  unfold trim; rewrite <- trimStart_nil.
  pose proof (trimStart_head s) as Hh.
  destruct (trimStart s) as [|c t]; [split; reflexivity|].
  rewrite trimEnd_cons by assumption.
  split; discriminate.
Qed.

(** ** The use-case classifiers *)

Section Classifier.

Context {host : JsHost}.

Ltac classify_cases :=
  repeat match goal with
         | |- context [if ?b then _ else _] => destruct b eqn:?; simpl in *
         end.

(** C4. [determineUseCases] ([classifyFile]) and [determineUseCasesForSymbol]
    ([classifySymbol]) are total functions that return a non-empty list of
    use cases on every input, the fallback giving all three labels when no
    rule has matched: there is no error path. *)
Theorem classifiers_total :
  (forall file : GitHubFile,
      determineUseCases file <> [] /\
      (fileRuleUseCases file = [] ->
       determineUseCases file = [BUG_FIXING; CODE_GENERATION; EXPLANATION])) /\
  (forall (symbolName : jsstring) (chunkType : ChunkType) (file : GitHubFile),
      determineUseCasesForSymbol symbolName chunkType file <> [] /\
      (symbolRuleUseCases symbolName chunkType file = [] ->
       determineUseCasesForSymbol symbolName chunkType file =
       [BUG_FIXING; CODE_GENERATION; EXPLANATION])).
Proof.
  split; intros.
  - unfold determineUseCases.
    destruct (fileRuleUseCases file) as [|u us]; simpl.
    + split; [discriminate | reflexivity].
    + split; discriminate.
  - unfold determineUseCasesForSymbol.
    destruct (symbolRuleUseCases symbolName chunkType file) as [|u us]; simpl.
    + split; [discriminate | reflexivity].
    + split; discriminate.
Qed.

(** The three rules of [determineUseCases] always select a label. *)
Lemma fileRuleUseCases_nonempty (file : GitHubFile) :
  fileRuleUseCases file <> [].
Proof.
  unfold fileRuleUseCases.
  destruct (isTestFile file), (isDocFile file); simpl;
    rewrite ?orb_true_r; simpl; classify_cases; discriminate.
Qed.

Lemma determineUseCases_rules (file : GitHubFile) :
  determineUseCases file = fileRuleUseCases file.
Proof.
  unfold determineUseCases.
  pose proof (fileRuleUseCases_nonempty file) as H.
  destruct (fileRuleUseCases file); [congruence | reflexivity].
Qed.

(** C5. The labels [determineUseCases] gives a file: [BUG_FIXING] iff the
    file is neither a test nor a doc file; [CODE_GENERATION] iff it is an API
    file, its (lower-cased) file name contains [example], or it is a test
    file; [EXPLANATION] iff it is a doc file, an API file, or its path
    contains [public/].  A doc file is one whose (lower-cased) file name
    contains [readme], [documentation] or [docs], or whose extension is
    [.md]. *)
Theorem determineUseCases_labels (file : GitHubFile) :
  let fileName := toLowerCase (basename (File.path file)) in
  (In BUG_FIXING (determineUseCases file) <->
   isTestFile file = false /\ isDocFile file = false) /\
  (In CODE_GENERATION (determineUseCases file) <->
   isApiFile file = true \/ includes fileName (lit "example") = true \/
   isTestFile file = true) /\
  (In EXPLANATION (determineUseCases file) <->
   isDocFile file = true \/ isApiFile file = true \/
   includes (File.path file) (lit "public/") = true) /\
  (isDocFile file = true <->
   includes fileName (lit "readme") = true \/
   includes fileName (lit "documentation") = true \/
   includes fileName (lit "docs") = true \/
   extname (File.path file) = lit ".md") /\
  (isTestFile file = true <->
   includes fileName (lit "test") = true \/
   includes fileName (lit "spec") = true \/
   includes (File.path file) (lit "test/") = true \/
   includes (File.path file) (lit "tests/") = true \/
   includes (File.path file) (lit "__tests__/") = true) /\
  (isApiFile file = true <->
   includes fileName (lit "api") = true \/
   includes fileName (lit "interface") = true \/
   includes fileName (lit "contract") = true \/
   endsWith fileName (lit ".d.ts") = true).
Proof.
  intros fileName.
  rewrite determineUseCases_rules.
  unfold fileRuleUseCases; fold fileName.
  split; [|split; [|split; [|split; [|split]]]];
    [| | | | unfold isTestFile; fold fileName; rewrite !orb_true_iff; tauto
     | unfold isApiFile; fold fileName; rewrite !orb_true_iff; tauto].
  - destruct (isTestFile file), (isDocFile file); simpl;
      classify_cases; intuition congruence.
  - destruct (isApiFile file), (includes fileName (lit "example")),
      (isTestFile file); simpl; classify_cases; intuition congruence.
  - destruct (isDocFile file), (isApiFile file),
      (includes (File.path file) (lit "public/")); simpl;
      classify_cases; intuition congruence.
  - unfold isDocFile; fold fileName.
    rewrite !orb_true_iff, str_eqb_eq; tauto.
Qed.

(** The rule list of a symbol that matches no name heuristic. *)
Lemma symbolRuleUseCases_posix_foo (file : GitHubFile) :
  includes (File.path file) (lit "public") = false ->
  @symbolRuleUseCases posixHost (lit "foo") FUNCTION file = [].
Proof.
  intros Hp; unfold symbolRuleUseCases; simpl toLowerCase.
  rewrite Hp; reflexivity.
Qed.

End Classifier.

(** C10. The three rules of [determineUseCases] alone select at least one
    label for every file ([BUG_FIXING] for a file that is neither test nor
    doc, [CODE_GENERATION] for a test file, [EXPLANATION] for a doc file), so
    its fallback branch is never taken; the fallback of
    [determineUseCasesForSymbol] is taken, for instance by a function named
    [foo] in [src/a.ts]. *)
Theorem file_fallback_unreachable :
  (forall (host : JsHost) (file : GitHubFile),
      (isTestFile file = false /\ isDocFile file = false ->
       In BUG_FIXING (fileRuleUseCases file)) /\
      (isTestFile file = true -> In CODE_GENERATION (fileRuleUseCases file)) /\
      (isDocFile file = true -> In EXPLANATION (fileRuleUseCases file)) /\
      fileRuleUseCases file <> [] /\
      determineUseCases file = fileRuleUseCases file) /\
  (let file := File.mk (lit "src/a.ts") (lit "x") None 1 in
   @symbolRuleUseCases posixHost (lit "foo") FUNCTION file = [] /\
   @determineUseCasesForSymbol posixHost (lit "foo") FUNCTION file =
   [BUG_FIXING; CODE_GENERATION; EXPLANATION]).
Proof.
  split.
  - intros host file.
    split; [|split; [|split; [|split]]].
    + intros [Ht Hd]; unfold fileRuleUseCases; rewrite Ht, Hd; simpl.
      repeat match goal with
             | |- context [if ?b then _ else _] => destruct b; simpl
             end; auto.
    + intros Ht; unfold fileRuleUseCases; rewrite Ht; simpl.
      rewrite !orb_true_r.
      repeat match goal with
             | |- context [if ?b then _ else _] => destruct b; simpl
             end; auto.
    + intros Hd; unfold fileRuleUseCases; rewrite Hd; simpl.
      rewrite andb_false_r; simpl.
      repeat match goal with
             | |- context [if ?b then _ else _] => destruct b; simpl
             end; rewrite ?in_app_iff; simpl; auto.
    + apply fileRuleUseCases_nonempty.
    + apply determineUseCases_rules.
  - intros file.
    assert (E : @symbolRuleUseCases posixHost (lit "foo") FUNCTION file = [])
      by (apply symbolRuleUseCases_posix_foo; reflexivity).
    split; [exact E|].
    unfold determineUseCasesForSymbol; rewrite E; reflexivity.
Qed.

(** ** Literal patterns are substring and suffix tests *)

Lemma includes_char (s : jsstring) (c : jschar) :
  includes s [c] = true <-> In c s.
Proof.
  induction s as [|x s IH]; simpl.
  - split; [discriminate | tauto].
  - rewrite orb_true_iff, IH, andb_true_r, N.eqb_eq. tauto.
Qed.

Lemma startsWith_spec (s w : jsstring) :
  startsWith s w = true <-> exists rest, s = w ++ rest.
Proof.
  revert s; induction w as [|y w IH]; intros s; simpl.
  - split; [intros _; exists s; reflexivity | reflexivity].
  - destruct s as [|x s].
    + split; [discriminate | intros [rest E]; discriminate].
    + rewrite andb_true_iff, N.eqb_eq, IH.
      split.
      * intros [-> [rest ->]]; exists rest; reflexivity.
      * intros [rest E]; injection E as -> ->; split; [reflexivity|].
        exists rest; reflexivity.
Qed.

Lemma includes_spec (s w : jsstring) :
  includes s w = true <-> exists pre rest, s = pre ++ w ++ rest.
Proof.
  induction s as [|x s IH]; simpl; rewrite orb_true_iff, startsWith_spec.
  - split.
    + intros [[rest E] | H]; [|discriminate].
      exists [], rest; exact E.
    + intros [pre [rest E]]; left; exists rest.
      destruct pre; [exact E | discriminate].
  - rewrite IH; split.
    + intros [[rest E] | [pre [rest E]]].
      * exists [], rest; exact E.
      * exists (x :: pre), rest; rewrite E; reflexivity.
    + intros [[|y pre] [rest E]].
      * left; exists rest; exact E.
      * right; injection E as -> ->; exists pre, rest; reflexivity.
Qed.

Lemma endsWith_spec (s w : jsstring) :
  endsWith s w = true <-> exists pre, s = pre ++ w.
Proof.
  unfold endsWith; rewrite andb_true_iff, Nat.leb_le, str_eqb_eq; split.
  - intros [Hle E].
    exists (firstn (length s - length w) s).
    rewrite <- E at 2; symmetry; apply firstn_skipn.
  - intros [pre ->]; rewrite length_app; split; [lia|].
    replace (length pre + length w - length w)%nat with (length pre) by lia.
    rewrite skipn_app, skipn_all, Nat.sub_diag; reflexivity.
Qed.

Lemma rmatch_rword (n : nat) (w s : jsstring) (cap : option jsstring)
    (k : jsstring -> option jsstring -> option mstate) :
  rmatch n (rword w) s cap k =
  if startsWith s w then k (skipn (length w) s) cap else None.
Proof.
  revert s; induction w as [|y w IH]; intros s; simpl; [reflexivity|].
  destruct s as [|x s]; [reflexivity|].
  destruct (N.eqb x y); simpl; [apply IH | reflexivity].
Qed.

(** [/w/.test(s)] for a literal [w] is [s.includes(w)]. *)
Lemma regex_test_rword (w s : jsstring) :
  regex_test (rword w) s = includes s w.
Proof.
  unfold regex_test, regex_match; generalize (length s) as n.
  induction s as [|x s IH]; intros n; simpl exec_from; rewrite rmatch_rword.
  - simpl; destruct (startsWith [] w); reflexivity.
  - simpl includes. destruct (startsWith (x :: s) w); [reflexivity|].
    apply IH.
Qed.

Lemma rmatch_rword_eol (n : nat) (w s : jsstring) :
  rmatch n (RSeq (rword w) REol) s None (fun s' cap => Some (s', cap)) =
  if str_eqb s w then Some ([], None) else None.
Proof.
  simpl; rewrite rmatch_rword.
  destruct (startsWith s w) eqn:Hs.
  - apply startsWith_spec in Hs as [rest ->].
    rewrite skipn_app, skipn_all, Nat.sub_diag; simpl.
    destruct rest as [|c rest].
    + rewrite app_nil_r, str_eqb_refl; reflexivity.
    + destruct (str_eqb (w ++ c :: rest) w) eqn:E; [|reflexivity].
      apply str_eqb_eq in E.
      apply (f_equal (@length _)) in E; rewrite length_app in E.
      simpl in E; lia.
  - destruct (str_eqb s w) eqn:E; [|reflexivity].
    apply str_eqb_eq in E; subst s.
    assert (startsWith w w = true)
      by (apply startsWith_spec; exists []; symmetry; apply app_nil_r).
    congruence.
Qed.

(** [/w$/.test(s)] for a literal [w] is [s.endsWith(w)]. *)
Lemma regex_test_rword_eol (w s : jsstring) :
  regex_test (RSeq (rword w) REol) s = endsWith s w.
Proof.
  apply eq_true_iff_eq; rewrite endsWith_spec.
  unfold regex_test, regex_match; generalize (length s) as n.
  induction s as [|x s IH]; intros n.
  - unfold exec_from; rewrite rmatch_rword_eol.
    destruct (str_eqb [] w) eqn:E.
    + apply str_eqb_eq in E; subst w.
      split; [intros _; exists []; reflexivity | reflexivity].
    + split; [discriminate|].
      intros [pre E']. destruct pre, w; try discriminate.
  - cbn [exec_from]; rewrite rmatch_rword_eol.
    destruct (str_eqb (x :: s) w) eqn:E.
    + apply str_eqb_eq in E; subst w.
      split; [intros _; exists []; reflexivity | reflexivity].
    + rewrite IH; split.
      * intros [pre ->]; exists (x :: pre); reflexivity.
      * intros [[|y pre] E'].
        -- simpl in E'; subst w; rewrite str_eqb_refl in E; discriminate.
        -- injection E' as -> ->; exists pre; reflexivity.
Qed.

(** ** The closing-brace pattern and the capture group *)

Lemma star_ws_trimStart (s : jsstring) (k : jsstring -> option mstate) :
  (forall c s', isWhiteSpace c = true -> k (c :: s') = None) ->
  star isWhiteSpace s k = k (trimStart s).
Proof.
  intros Hk; induction s as [|c s IH]; simpl; [reflexivity|].
  destruct (isWhiteSpace c) eqn:Hc; [|reflexivity].
  rewrite IH.
  destruct (k (trimStart s)); [reflexivity|].
  apply Hk; exact Hc.
Qed.

Lemma exec_from_bol_short (n : nat) (r : regex) (s : jsstring) :
  (length s < n)%nat -> exec_from n (RSeq RBol r) s = None.
Proof.
  induction s as [|c s IH]; intros Hlen; cbn [exec_from rmatch].
  - destruct (Nat.eqb_spec (length (@nil jschar)) n) as [E|E];
      [simpl in E; lia | reflexivity].
  - destruct (Nat.eqb_spec (length (c :: s)) n) as [E|E];
      [simpl in E, Hlen; lia|].
    apply IH; simpl in Hlen; lia.
Qed.

Lemma regex_test_bol (r : regex) (s : jsstring) :
  regex_test (RSeq RBol r) s =
  match rmatch (length s) r s None (fun s' cap => Some (s', cap)) with
  | Some _ => true
  | None => false
  end.
Proof.
  unfold regex_test, regex_match.
  destruct s as [|c s]; cbn [exec_from rmatch]; rewrite Nat.eqb_refl.
  - destruct (rmatch _ r [] None _) as [[s' cap]|]; reflexivity.
  - destruct (rmatch _ r (c :: s) None _) as [[s' cap]|]; [reflexivity|].
    rewrite exec_from_bol_short by (simpl; lia); reflexivity.
Qed.

(** [/^\s*}\s*$/.test(line)] is [line.trim() === "}"]: functions and
    classes are closed by the same lines. *)
Lemma regex_test_closingBrace (line : jsstring) :
  regex_test closingBracePattern line = str_eqb (trim line) (lit "}").
Proof.
  unfold closingBracePattern; cbn [rseq fold_right].
  rewrite regex_test_bol; cbn [rmatch].
  rewrite star_ws_trimStart.
  2:{ intros c s' Hc.
      destruct (N.eqb_spec c (chr "}")) as [->|];
        [discriminate | reflexivity]. }
  unfold trim.
  pose proof (trimStart_head line) as Hh.
  destruct (trimStart line) as [|c t]; [reflexivity|].
  rewrite trimEnd_cons by assumption.
  change (lit "}") with [chr "}"]; cbn [str_eqb].
  destruct (N.eqb c (chr "}")); [|reflexivity].
  rewrite star_ws_trimStart by (intros; reflexivity).
  simpl.
  destruct (trimStart t) as [|c' t'] eqn:Et.
  - apply trimStart_nil, trimEnd_nil in Et; rewrite Et; reflexivity.
  - destruct (trimEnd t) eqn:Ee; [|reflexivity].
    apply trimEnd_nil, trimStart_nil in Ee; congruence.
Qed.

Lemma star_result (p : jschar -> bool) (s : jsstring)
    (k : jsstring -> option mstate) (x : mstate) :
  star p s k = Some x -> exists s', k s' = Some x.
Proof.
  induction s as [|c s IH]; simpl; [intros H; exists []; exact H|].
  destruct (p c); [|intros H; exists (c :: s); exact H].
  destruct (star p s k) eqn:E.
  - intros H; injection H as ->; apply IH; reflexivity.
  - intros H; exists (c :: s); exact H.
Qed.

(** A successful match is a result of its continuation. *)
Lemma rmatch_result (r : regex) :
  forall n s cap k x,
    rmatch n r s cap k = Some x -> exists s' cap', k s' cap' = Some x.
Proof.
  induction r as [c|p|r1 IH1 r2 IH2|r1 IH1 r2 IH2|r1 IH1|p|p|r1 IH1| | |];
    intros n s cap k x; simpl.
  - destruct s as [|c' s]; [discriminate|].
    destruct (N.eqb c' c); [eauto | discriminate].
  - destruct s as [|c' s]; [discriminate|].
    destruct (p c'); [eauto | discriminate].
  - intros H; apply IH1 in H as (s' & cap' & H); eapply IH2; exact H.
  - destruct (rmatch n r1 s cap k) eqn:E.
    + intros H; injection H as ->; eapply IH1; exact E.
    + apply IH2.
  - destruct (rmatch n r1 s cap k) eqn:E.
    + intros H; injection H as ->; eapply IH1; exact E.
    + eauto.
  - intros H; apply star_result in H as [s' H]; eauto.
  - destruct s as [|c' s]; [discriminate|].
    destruct (p c'); [|discriminate].
    intros H; apply star_result in H as [s' H]; eauto.
  - intros H; apply IH1 in H as (s' & cap' & H); eauto.
  - destruct (Nat.eqb (length s) n); [eauto | discriminate].
  - destruct s; [eauto | discriminate].
  - eauto.
Qed.

(** A capture that is set stays set. *)
Lemma rmatch_keeps (r : regex) :
  forall n s c k x,
    keepsCapture k -> rmatch n r s (Some c) k = Some x -> snd x <> None.
Proof.
  induction r as [c0|p|r1 IH1 r2 IH2|r1 IH1 r2 IH2|r1 IH1|p|p|r1 IH1| | |];
    intros n s c k x Hk; simpl.
  - destruct s as [|c' s]; [discriminate|].
    destruct (N.eqb c' c0); [apply Hk | discriminate].
  - destruct s as [|c' s]; [discriminate|].
    destruct (p c'); [apply Hk | discriminate].
  - apply IH1; intros s' c' x'; apply IH2; exact Hk.
  - destruct (rmatch n r1 s (Some c) k) eqn:E.
    + intros H; injection H as ->; eapply IH1; eassumption.
    + apply IH2; exact Hk.
  - destruct (rmatch n r1 s (Some c) k) eqn:E.
    + intros H; injection H as ->; eapply IH1; eassumption.
    + apply Hk.
  - intros H; apply star_result in H as [s' H]; eapply Hk; exact H.
  - destruct s as [|c' s]; [discriminate|].
    destruct (p c'); [|discriminate].
    intros H; apply star_result in H as [s' H]; eapply Hk; exact H.
  - intros H; apply rmatch_result in H as (s' & cap' & H); eapply Hk; exact H.
  - destruct (Nat.eqb (length s) n); [apply Hk | discriminate].
  - destruct s; [apply Hk | discriminate].
  - apply Hk.
Qed.

Lemma rmatch_captures (r : regex) :
  captures r = true ->
  forall n s cap k x,
    keepsCapture k -> rmatch n r s cap k = Some x -> snd x <> None.
Proof.
  induction r as [c0|p|r1 IH1 r2 IH2|r1 IH1 r2 IH2|r1 IH1|p|p|r1 IH1| | |];
    simpl; try discriminate; intros Hc n s cap k x Hk.
  - destruct (captures r1) eqn:E1.
    + apply IH1; [reflexivity|].
      intros s' c' x'; apply rmatch_keeps; exact Hk.
    + intros H; apply rmatch_result in H as (s' & cap' & H).
      eapply IH2; eassumption.
  - intros H; apply rmatch_result in H as (s' & cap' & H); eapply Hk; exact H.
Qed.

(** Element 1 of the match array is defined for a pattern whose group is
    not optional. *)
Lemma regex_match_group1 (r : regex) (s : jsstring) (m : MatchResult) :
  captures r = true -> regex_match s r = Some m ->
  exists g : jsstring, m_1 m = Some g.
Proof.
  intros Hc; unfold regex_match; generalize (length s) as n.
  induction s as [|c s IH]; intros n; cbn [exec_from];
    destruct (rmatch n r _ None _) as [[s' cap]|] eqn:E;
    try discriminate; try apply IH.
  all: intros H; injection H as <-; simpl.
  all: eapply rmatch_captures in E;
    [|exact Hc|intros ? ? ? Hx; injection Hx as <-; discriminate].
  all: simpl in E; destruct cap as [g|]; [exists g; reflexivity | congruence].
Qed.

(** ** The tenth of a length in binary64 *)

Section Binary64.

Local Open Scope Z_scope.

(** For a number below [2^53] (as a multiple of [2^-55]) rounding keeps the
    exact value; otherwise the result is one of the two neighbours with 53
    significant bits, [q * P] or [(q + 1) * P], where [P] is the unit in the
    last place, and it is the upper one only from half a unit on. *)
Lemma round53_cases (n : Z) :
  0 < n -> Z.log2 n < 108 ->
  round53 n = n \/
  exists P H T q r : Z,
    P = 2 * H /\ 1 <= H /\ P * 2 ^ 52 <= n /\ 2 ^ 55 = P * T /\ 1 <= T /\
    n = q * P + r /\ 0 <= r < P /\ 0 <= q /\
    (round53 n = q * P \/ (round53 n = (q + 1) * P /\ H <= r)).
Proof.
  intros Hn Hlog; unfold round53.
  destruct (Z.leb_spec (Z.log2 n - 52) 0) as [Hsh | Hsh];
    [left; reflexivity|].
  right.
  set (sh := Z.log2 n - 52) in *.
  exists (2 ^ sh), (2 ^ (sh - 1)), (2 ^ (55 - sh)),
    (n / 2 ^ sh), (n mod 2 ^ sh).
  assert (HP : 0 < 2 ^ sh) by (apply Z.pow_pos_nonneg; lia).
  assert (HH : 0 < 2 ^ (sh - 1)) by (apply Z.pow_pos_nonneg; lia).
  assert (HT : 0 < 2 ^ (55 - sh))
    by (apply Z.pow_pos_nonneg; unfold sh in *; lia).
  split.
  { replace sh with (Z.succ (sh - 1)) at 1 by lia.
    rewrite Z.pow_succ_r by lia; reflexivity. }
  split; [lia|].
  split.
  { rewrite <- Z.pow_add_r by lia.
    replace (sh + 52) with (Z.log2 n) by (unfold sh; lia).
    apply Z.log2_spec; exact Hn. }
  split.
  { rewrite <- Z.pow_add_r by (unfold sh in *; lia); f_equal; lia. }
  split; [lia|].
  split; [rewrite Z.mul_comm; apply Z.div_mod; lia|].
  split; [apply Z.mod_pos_bound; exact HP|].
  split; [apply Z.div_pos; lia|].
  destruct ((2 ^ (sh - 1) <? n mod 2 ^ sh) ||
            ((n mod 2 ^ sh =? 2 ^ (sh - 1)) && Z.odd (n / 2 ^ sh))) eqn:E.
  - right; split; [reflexivity|].
    apply orb_true_iff in E as [E | E].
    + apply Z.ltb_lt in E; lia.
    + apply andb_true_iff in E as [E _]; apply Z.eqb_eq in E; lia.
  - left; reflexivity.
Qed.

(** For lengths below [2^52] the rounded product [len * 0.1] is below the
    integer [count] exactly when [len < 10 * count]. *)
Lemma round53_tenth (L C : Z) :
  0 <= L < 2 ^ 52 -> 0 <= C ->
  (round53 (L * tenthMantissa) <? C * 2 ^ 55) = (L <? 10 * C).
Proof.
  intros [HL Hlen] HC.
  assert (HM : 10 * tenthMantissa = 2 ^ 55 + 2) by reflexivity.
  change (2 ^ 52) with 4503599627370496 in *.
  change (2 ^ 55) with 36028797018963968 in *.
  destruct (Z.eq_dec L 0) as [E0 | HL0].
  { subst L; change (round53 (0 * tenthMantissa)) with 0.
    destruct (Z.ltb_spec 0 (C * 36028797018963968)), (Z.ltb_spec 0 (10 * C));
      try reflexivity; exfalso; lia. }
  remember (L * tenthMantissa) as N eqn:EN.
  assert (HN : 10 * N = L * 36028797018963968 + 2 * L) by lia.
  assert (HNpos : 0 < N) by lia.
  assert (Hlog : Z.log2 N < 108).
  { apply Z.log2_lt_pow2; [exact HNpos|].
    change (2 ^ 108) with 324518553658426726783156020576256; lia. }
  destruct (round53_cases N HNpos Hlog)
    as [-> | (P & H & T & q & r & Hcase)].
  { destruct (Z.ltb_spec N (C * 36028797018963968)),
      (Z.ltb_spec L (10 * C)); try reflexivity; exfalso; lia. }
  destruct Hcase as (HP & HH & HPN & HT & HT1 & Hqr & Hr & Hq & HR).
  change (2 ^ 52) with 4503599627370496 in *.
  change (2 ^ 55) with 36028797018963968 in *.
  destruct (Z.ltb_spec L (10 * C)) as [Hlt | Hge].
  - (* the count exceeds a tenth: the product rounds to less than the count *)
    apply Z.ltb_lt.
    assert (HNK : N < C * 36028797018963968) by lia.
    assert (Hgap : 10 * (C * 36028797018963968 - N)
                   >= 36028797018963968 - 2 * L) by lia.
    assert (Hulp : 10 * (H * 9007199254740992) <= 10 * N) by lia.
    rewrite HT in HNK, Hgap |- *.
    assert (Hq1 : q + 1 <= C * T) by nia.
    destruct HR as [-> | [-> Hup]]; [nia|].
    assert (Hq2 : q + 1 < C * T); [|nia].
    destruct (Z.eq_dec (q + 1) (C * T)) as [E|]; [exfalso|lia].
    assert (Hd : C * (P * T) - N = P - r) by nia.
    lia.
  - apply Z.ltb_ge.
    assert (HNK : C * 36028797018963968 <= N) by lia.
    rewrite HT in HNK |- *.
    assert (C * T <= q) by nia.
    destruct HR as [-> | [-> _]]; nia.
Qed.

(** The exact comparison of [isLikelyBinary] is the binary64 one. *)
Lemma exceedsTenth_binary64_exact (count len : nat) :
  Z.of_nat len < 2 ^ 52 ->
  exceedsTenth_binary64 count len = exceedsTenth count len.
Proof.
  intros Hlen; unfold exceedsTenth_binary64, exceedsTenth.
  rewrite round53_tenth by lia.
  destruct (Nat.ltb_spec len (10 * count)),
    (Z.ltb_spec (Z.of_nat len) (10 * Z.of_nat count));
    try reflexivity; exfalso; lia.
Qed.

End Binary64.

(** ** The file filter *)

Lemma isLikelyBinary_iff (content : jsstring) :
  isLikelyBinary content = true <->
  In 0%N content \/
  (length content < 10 * length (filter isNonPrintable content))%nat.
Proof.
  unfold isLikelyBinary, match_all_class, exceedsTenth.
  destruct (includes content [0%N]) eqn:E0.
  { split; [intros _; left; apply includes_char; exact E0 | reflexivity]. }
  assert (N0 : ~ In 0%N content)
    by (intros H; apply includes_char in H; exact (eq_true_false_abs _ H E0)).
  destruct (filter isNonPrintable content) as [|c cs] eqn:E.
  - simpl; split; [discriminate | intros [H|H]; [tauto | lia]].
  - rewrite length_map.
    destruct (length content <? 10 * length (c :: cs))%nat eqn:L.
    + apply Nat.ltb_lt in L; tauto.
    + apply Nat.ltb_ge in L.
      split; [discriminate | intros [H|H]; [tauto | lia]].
Qed.

(** C3. [shouldSkipFile] holds exactly when the content is empty or white
    space only, or the byte size exceeds 2,097,152, or the content has a null
    character or more than one tenth of its characters in
    [0x00-0x08, 0x0B, 0x0C, 0x0E-0x1F, 0x7F], or the path contains [.git/] or
    [node_modules/] or ends with one of [.DS_Store], [.env], [.log],
    [.lock], [package-lock.json], [yarn.lock], [pnpm-lock.yaml] (compared
    case-sensitively).  In particular a file with a null character is
    skipped whatever its path. *)
Theorem shouldSkipFile_iff (file : GitHubFile) :
  (shouldSkipFile file = true <->
   forallb isWhiteSpace (File.content file) = true \/
   (2097152 < File.size file)%Z \/
   (In 0%N (File.content file) \/
    (length (File.content file) <
     10 * length (filter isNonPrintable (File.content file)))%nat) \/
   (includes (File.path file) (lit ".git/") = true \/
    includes (File.path file) (lit "node_modules/") = true \/
    endsWith (File.path file) (lit ".DS_Store") = true \/
    endsWith (File.path file) (lit ".env") = true \/
    endsWith (File.path file) (lit ".log") = true \/
    endsWith (File.path file) (lit ".lock") = true \/
    endsWith (File.path file) (lit "package-lock.json") = true \/
    endsWith (File.path file) (lit "yarn.lock") = true \/
    endsWith (File.path file) (lit "pnpm-lock.yaml") = true)) /\
  (In 0%N (File.content file) -> shouldSkipFile file = true).
Proof.
  assert (Hiff : shouldSkipFile file = true <->
   forallb isWhiteSpace (File.content file) = true \/
   (2097152 < File.size file)%Z \/
   (In 0%N (File.content file) \/
    (length (File.content file) <
     10 * length (filter isNonPrintable (File.content file)))%nat) \/
   (includes (File.path file) (lit ".git/") = true \/
    includes (File.path file) (lit "node_modules/") = true \/
    endsWith (File.path file) (lit ".DS_Store") = true \/
    endsWith (File.path file) (lit ".env") = true \/
    endsWith (File.path file) (lit ".log") = true \/
    endsWith (File.path file) (lit ".lock") = true \/
    endsWith (File.path file) (lit "package-lock.json") = true \/
    endsWith (File.path file) (lit "yarn.lock") = true \/
    endsWith (File.path file) (lit "pnpm-lock.yaml") = true)).
  { unfold shouldSkipFile.
    rewrite <- trim_nil, <- isLikelyBinary_iff, <- str_eqb_eq.
    destruct (str_eqb (trim (File.content file)) []); [tauto|].
    destruct (2 * 1024 * 1024 <? File.size file)%Z eqn:Hsz.
    { apply Z.ltb_lt in Hsz.
      split; [intros _; right; left; lia | reflexivity]. }
    apply Z.ltb_ge in Hsz.
    destruct (isLikelyBinary (File.content file)); [tauto|].
    unfold skipPatterns, rlit; cbn [existsb].
    rewrite !regex_test_rword, !regex_test_rword_eol, !orb_false_r.
    match goal with
    | |- (if ?b then _ else _) = true <-> _ => destruct b eqn:Hb
    end.
    - rewrite !orb_true_iff in Hb; split; [intros _ | reflexivity].
      do 3 right; tauto.
    - rewrite !orb_false_iff in Hb.
      split; [discriminate|].
      intros [H|[H|[H|H]]]; try discriminate; try lia.
      destruct Hb as (?&?&?&?&?&?&?&?&?).
      destruct H as [H|[H|[H|[H|[H|[H|[H|[H|H]]]]]]]]; congruence. }
  split; [exact Hiff|].
  intros H0; apply Hiff; right; right; left; left; exact H0.
Qed.

(** ** Array slices *)

Lemma slice_snoc (A : Type) (pre rest : list A) (x : A) (s : Z) :
  (0 <= s <= Z.of_nat (length pre))%Z ->
  slice (pre ++ x :: rest) s (Z.of_nat (length pre) + 1) =
  slice (pre ++ x :: rest) s (Z.of_nat (length pre)) ++ [x].
Proof.
  intros Hs; unfold slice.
  assert (Hn : (Z.to_nat s <= length pre)%nat) by lia.
  rewrite skipn_app.
  replace (Z.to_nat s - length pre)%nat with 0%nat by lia.
  simpl skipn.
  assert (Hl : length (skipn (Z.to_nat s) pre) = (length pre - Z.to_nat s)%nat)
    by apply length_skipn.
  replace (Z.to_nat (Z.of_nat (length pre) + 1 - s))
    with (S (length (skipn (Z.to_nat s) pre))) by lia.
  replace (Z.to_nat (Z.of_nat (length pre) - s))
    with (length (skipn (Z.to_nat s) pre)) by lia.
  rewrite !firstn_app, !Nat.sub_diag, firstn_all.
  rewrite firstn_all2 by lia.
  replace (S (length (skipn (Z.to_nat s) pre)) -
           length (skipn (Z.to_nat s) pre))%nat with 1%nat by lia.
  simpl; rewrite app_nil_r; reflexivity.
Qed.

Lemma slice_single (A : Type) (pre rest : list A) (x : A) :
  slice (pre ++ x :: rest) (Z.of_nat (length pre)) (Z.of_nat (length pre) + 1)
  = [x].
Proof.
  unfold slice.
  rewrite Nat2Z.id, skipn_app, skipn_all, Nat.sub_diag.
  replace (Z.to_nat (Z.of_nat (length pre) + 1 - Z.of_nat (length pre)))
    with 1%nat by lia.
  reflexivity.
Qed.

(** ** The boundary detector *)

Section Detector.

Context {host : JsHost}.
Variable repoInfo : GitHubRepositoryInfo.
Variable file : GitHubFile.

Lemma regionChunk_Some (r : Region.t) (c : CodeChunk) :
  regionChunk repoInfo file r = Some c ->
  isSymbolChunk c = true /\
  Chunk.type c = (if Region.isClass r then CLASS else FUNCTION) /\
  Chunk.content c = join [nl] (Region.content r) /\
  Meta.startLine (Chunk.metadata c) = Some (Region.startLine r) /\
  Meta.endLine (Chunk.metadata c) = Some (Region.endLine r) /\
  Meta.symbolName (Chunk.metadata c) = Region.name r /\
  Meta.filePath (Chunk.metadata c) = File.path file.
Proof.
  unfold regionChunk.
  destruct (Region.name r) as [name|]; [|discriminate].
  intros E; injection E as <-; simpl.
  destruct (Region.isClass r); repeat split; reflexivity.
Qed.

Lemma regionChunk_ranged (lines : list jsstring) (r : Region.t)
    (c : CodeChunk) :
  regionChunk repoInfo file r = Some c ->
  (0 <= Region.startLine r <= Region.endLine r)%Z ->
  (Region.endLine r < Z.of_nat (length lines))%Z ->
  Region.content r =
    slice lines (Region.startLine r) (Region.endLine r + 1) ->
  rangedChunk (File.path file) lines c.
Proof.
  intros Hc Hs He Hcont.
  apply regionChunk_Some in Hc as (Hk & _ & Htxt & Hst & Hen & _ & Hp).
  split; [exact Hk|]. split; [exact Hp|].
  exists (Region.startLine r), (Region.endLine r).
  rewrite Htxt, Hcont; auto.
Qed.

(** One iteration keeps the chunks ranged and the open region consistent. *)
Lemma scanLine_inv (pre rest : list jsstring) (line : jsstring)
    (chunks : list CodeChunk) (cur : option Region.t) :
  let lines := pre ++ line :: rest in
  let i := Z.of_nat (length pre) in
  Forall (rangedChunk (File.path file) lines) chunks ->
  openRegionInv lines i cur ->
  match scanLine repoInfo file i line (chunks, cur) with
  | inl (chunks', cur') =>
      Forall (rangedChunk (File.path file) lines) chunks' /\
      openRegionInv lines (i + 1) cur'
  | inr chunks' => Forall (rangedChunk (File.path file) lines) chunks'
  end.
Proof.
  intros lines i Hch Hcur.
  assert (Hlen : (i < Z.of_nat (length lines))%Z).
  { unfold lines, i; rewrite length_app; simpl; lia. }
  unfold scanLine.
  destruct cur as [r|].
  - destruct Hcur as [Hs Hcont].
    assert (Hsnoc : Region.content r ++ [line] =
                    slice lines (Region.startLine r) (i + 1)).
    { rewrite Hcont; unfold lines, i; symmetry; apply slice_snoc.
      fold i; lia. }
    match goal with
    | |- context [if ?b then _ else _] => destruct b
    end.
    + match goal with
      | |- context [regionChunk _ _ ?r'] =>
          destruct (regionChunk repoInfo file r') as [c|] eqn:Ec
      end; [|exact Hch].
      split; [|exact I].
      apply Forall_app; split; [exact Hch|].
      constructor; [|constructor].
      apply (regionChunk_ranged lines _ c Ec); simpl; auto; lia.
    + split; [exact Hch|].
      simpl; split; [lia | exact Hsnoc].
  - assert (Hone : [line] = slice lines i (i + 1))
      by (unfold lines, i; symmetry; apply slice_single).
    destruct (regex_match line classPattern) as [m|].
    + split; [exact Hch|]. simpl; split; [lia | exact Hone].
    + destruct (regex_match line functionPattern) as [m|].
      * split; [exact Hch|]. simpl; split; [lia | exact Hone].
      * split; [exact Hch | exact I].
Qed.

Lemma scanLines_inv (rest pre : list jsstring) (st : scanState) :
  let lines := pre ++ rest in
  Forall (rangedChunk (File.path file) lines) (fst st) ->
  openRegionInv lines (Z.of_nat (length pre)) (snd st) ->
  match scanLines repoInfo file (Z.of_nat (length pre)) rest st with
  | inl (chunks', cur') =>
      Forall (rangedChunk (File.path file) lines) chunks' /\
      openRegionInv lines (Z.of_nat (length lines)) cur'
  | inr chunks' => Forall (rangedChunk (File.path file) lines) chunks'
  end.
Proof.
  revert pre st; induction rest as [|line rest IH]; intros pre [chunks cur];
    simpl fst; simpl snd; intros lines Hch Hcur.
  - simpl. unfold lines in *; rewrite app_nil_r in *; auto.
  - cbn [scanLines].
    pose proof (scanLine_inv pre rest line chunks cur Hch Hcur) as Hstep.
    destruct (scanLine repoInfo file (Z.of_nat (length pre)) line
                (chunks, cur)) as [[chunks' cur']|chunks']; [|exact Hstep].
    destruct Hstep as [Hch' Hcur'].
    specialize (IH (pre ++ [line]) (chunks', cur')).
    simpl in IH.
    rewrite length_app in IH; simpl length in IH.
    replace (Z.of_nat (length pre + 1)) with (Z.of_nat (length pre) + 1)%Z
      in IH by lia.
    unfold lines in *.
    rewrite <- app_assoc in IH; simpl in IH.
    apply IH; assumption.
Qed.

(** Every chunk of [createCodeChunks] is a class or function chunk with a
    line range inside the file whose text is exactly those lines. *)
Lemma createCodeChunks_ranged :
  Forall (rangedChunk (File.path file) (fileLines file))
    (createCodeChunks repoInfo file).
Proof.
  unfold createCodeChunks; fold (fileLines file).
  pose proof (scanLines_inv (fileLines file) [] ([], None)) as H.
  simpl in H. specialize (H (Forall_nil _) I).
  destruct (scanLines repoInfo file 0 (fileLines file) ([], None))
    as [[chunks [r|]]|chunks]; try tauto.
  destruct H as [Hch [Hs Hcont]].
  match goal with
  | |- context [regionChunk _ _ ?r'] =>
      destruct (regionChunk repoInfo file r') as [c|] eqn:Ec
  end; [|exact Hch].
  apply Forall_app; split; [exact Hch|].
  constructor; [|constructor].
  apply (regionChunk_ranged (fileLines file) _ c Ec); simpl; try lia.
  rewrite Hcont; f_equal; lia.
Qed.

End Detector.

(** ** The chunk assembler *)

Section Assembler.

Context {host : JsHost}.
Variable repoInfo : GitHubRepositoryInfo.

Lemma processFile_acc (chunks : list CodeChunk) (file : GitHubFile) :
  processFile repoInfo chunks file = chunks ++ processFile repoInfo [] file.
Proof.
  unfold processFile.
  destruct (shouldSkipFile file); [symmetry; apply app_nil_r|].
  destruct (isProgrammingFile file); simpl; rewrite ?app_assoc; reflexivity.
Qed.

Lemma fold_processFile_acc (files : list GitHubFile) (chunks : list CodeChunk) :
  fold_left (processFile repoInfo) files chunks =
  chunks ++ processFiles repoInfo files.
Proof.
  unfold processFiles; revert chunks.
  induction files as [|file files IH]; intros chunks; simpl.
  - symmetry; apply app_nil_r.
  - rewrite IH, (IH (processFile repoInfo [] file)), processFile_acc.
    symmetry; apply app_assoc.
Qed.

(** The output is the concatenation, in input order, of what each file
    contributes on its own. *)
Lemma processFiles_app (files1 files2 : list GitHubFile) :
  processFiles repoInfo (files1 ++ files2) =
  processFiles repoInfo files1 ++ processFiles repoInfo files2.
Proof.
  unfold processFiles at 1; rewrite fold_left_app.
  fold (processFiles repoInfo files1); apply fold_processFile_acc.
Qed.

Lemma processFiles_split (files1 files2 : list GitHubFile) (file : GitHubFile) :
  processFiles repoInfo (files1 ++ file :: files2) =
  processFiles repoInfo files1 ++ processFiles repoInfo [file] ++
  processFiles repoInfo files2.
Proof.
  rewrite processFiles_app.
  change (file :: files2) with ([file] ++ files2).
  rewrite processFiles_app; reflexivity.
Qed.

Lemma processFiles_one (file : GitHubFile) :
  processFiles repoInfo [file] =
  if shouldSkipFile file then []
  else createFileChunks repoInfo file ++
       (if isProgrammingFile file then createCodeChunks repoInfo file else []).
Proof.
  unfold processFiles, processFile; simpl.
  destruct (shouldSkipFile file); [reflexivity|].
  destruct (isProgrammingFile file); [reflexivity|].
  symmetry; apply app_nil_r.
Qed.

Lemma createCodeChunks_symbols (file : GitHubFile) (t : ChunkType) :
  t = FILE \/ t = SUMMARY ->
  filter (hasType t) (createCodeChunks repoInfo file) = [].
Proof.
  intros Ht.
  pose proof (createCodeChunks_ranged repoInfo file) as H.
  induction H as [|c cs Hc _ IH]; [reflexivity|].
  simpl; rewrite IH.
  destruct Hc as [Hk _]; unfold isSymbolChunk, hasType in *.
  destruct (Chunk.type c), Ht as [-> | ->]; simpl in *;
    try reflexivity; discriminate.
Qed.

Lemma filter_symbols (file : GitHubFile) (t : ChunkType) :
  t = FILE \/ t = SUMMARY ->
  filter (hasType t) (processFiles repoInfo [file]) =
  if shouldSkipFile file then []
  else filter (hasType t) (createFileChunks repoInfo file).
Proof.
  intros Ht; rewrite processFiles_one.
  destruct (shouldSkipFile file); [reflexivity|].
  rewrite filter_app.
  destruct (isProgrammingFile file);
    rewrite ?createCodeChunks_symbols by assumption; apply app_nil_r.
Qed.

(** C1. What a file of the input adds to the output of [processFiles]:
    nothing when [shouldSkipFile] holds, and otherwise exactly one chunk of
    type [FILE], whose content is the whole text of the file. *)
Theorem processFiles_file_chunk
    (files1 files2 : list GitHubFile) (file : GitHubFile) :
  processFiles repoInfo (files1 ++ file :: files2) =
    processFiles repoInfo files1 ++ processFiles repoInfo [file] ++
    processFiles repoInfo files2 /\
  (shouldSkipFile file = true -> processFiles repoInfo [file] = []) /\
  (shouldSkipFile file = false ->
   exists chunk : CodeChunk,
     filter (hasType FILE) (processFiles repoInfo [file]) = [chunk] /\
     Chunk.type chunk = FILE /\
     Chunk.content chunk = File.content file).
Proof.
  split; [apply processFiles_split|].
  split; intros Hskip.
  - rewrite processFiles_one, Hskip; reflexivity.
  - rewrite filter_symbols by auto; rewrite Hskip.
    unfold createFileChunks.
    destruct (isReadme file); simpl; eexists; repeat split.
Qed.

(** C8. A file that is not skipped and whose base name, lower-cased, is
    [readme.md] or [readme], or contains [readme] while the extension is
    [.md], adds exactly one chunk of type [SUMMARY], with the whole text of
    the file and the use cases [[EXPLANATION]]; every other file adds no
    [SUMMARY] chunk. *)
Theorem processFiles_summary_chunk
    (files1 files2 : list GitHubFile) (file : GitHubFile) :
  let fileName := toLowerCase (basename (File.path file)) in
  let readme :=
    fileName = lit "readme.md" \/ fileName = lit "readme" \/
    (includes fileName (lit "readme") = true /\
     extname (File.path file) = lit ".md") in
  processFiles repoInfo (files1 ++ file :: files2) =
    processFiles repoInfo files1 ++ processFiles repoInfo [file] ++
    processFiles repoInfo files2 /\
  (shouldSkipFile file = false /\ readme ->
   exists chunk : CodeChunk,
     filter (hasType SUMMARY) (processFiles repoInfo [file]) = [chunk] /\
     Chunk.type chunk = SUMMARY /\
     Chunk.content chunk = File.content file /\
     Chunk.useCases chunk = [EXPLANATION]) /\
  (shouldSkipFile file = true \/ ~ readme ->
   filter (hasType SUMMARY) (processFiles repoInfo [file]) = []).
Proof.
  intros fileName readme.
  assert (Hr : isReadme file = true <-> readme).
  { unfold isReadme, readme; fold fileName.
    rewrite !orb_true_iff, andb_true_iff, !str_eqb_eq; tauto. }
  split; [apply processFiles_split|].
  rewrite filter_symbols by auto.
  unfold createFileChunks.
  split.
  - intros [Hskip Hre]; apply Hr in Hre; rewrite Hskip, Hre; simpl.
    eexists; repeat split.
  - intros [Hskip | Hre]; [rewrite Hskip; reflexivity|].
    destruct (shouldSkipFile file); [reflexivity|].
    destruct (isReadme file); [|reflexivity].
    exfalso; apply Hre, Hr; reflexivity.
Qed.

Lemma In_processFiles (files : list GitHubFile) (c : CodeChunk) :
  In c (processFiles repoInfo files) ->
  exists file : GitHubFile,
    In file files /\ shouldSkipFile file = false /\
    (In c (createFileChunks repoInfo file) \/
     In c (createCodeChunks repoInfo file)).
Proof.
  induction files as [|file files IH].
  - intros [].
  - change (file :: files) with ([file] ++ files).
    rewrite processFiles_app, in_app_iff, processFiles_one.
    intros [H | H].
    + exists file; split; [left; reflexivity|].
      destruct (shouldSkipFile file); [destruct H|].
      split; [reflexivity|].
      apply in_app_iff in H as [H | H]; [left; exact H|].
      destruct (isProgrammingFile file); [right; exact H | destruct H].
    + destruct (IH H) as (f & Hin & Hrest).
      exists f; split; [right; exact Hin | exact Hrest].
Qed.

(** C2. Every chunk of [processFiles]: one of type [FILE] or [SUMMARY] has
    no [startLine] and no [endLine]; one of type [CLASS] or [FUNCTION] has
    both, with [0 <= startLine <= endLine < number of lines] of the file it
    comes from, and its content is the lines [startLine .. endLine] of that
    file joined with a newline. *)
Theorem processFiles_line_ranges (files : list GitHubFile) (c : CodeChunk) :
  In c (processFiles repoInfo files) ->
  (Chunk.type c = FILE \/ Chunk.type c = SUMMARY ->
   Meta.startLine (Chunk.metadata c) = None /\
   Meta.endLine (Chunk.metadata c) = None) /\
  (Chunk.type c = CLASS \/ Chunk.type c = FUNCTION ->
   exists (file : GitHubFile) (s e : Z),
     In file files /\
     Meta.filePath (Chunk.metadata c) = File.path file /\
     Meta.startLine (Chunk.metadata c) = Some s /\
     Meta.endLine (Chunk.metadata c) = Some e /\
     (0 <= s <= e)%Z /\ (e < Z.of_nat (length (fileLines file)))%Z /\
     Chunk.content c = join [nl] (slice (fileLines file) s (e + 1))).
Proof.
  intros Hin.
  apply In_processFiles in Hin as (file & Hfile & _ & [Hc | Hc]).
  - assert (Ht : (Chunk.type c = FILE \/ Chunk.type c = SUMMARY) /\
                 Meta.startLine (Chunk.metadata c) = None /\
                 Meta.endLine (Chunk.metadata c) = None).
    { unfold createFileChunks in Hc.
      destruct (isReadme file); simpl in Hc;
        repeat destruct Hc as [<- | Hc]; simpl; try tauto. }
    split; [tauto|].
    destruct Ht as [[Ht | Ht] _]; rewrite Ht; intros [?|?]; discriminate.
  - pose proof (createCodeChunks_ranged repoInfo file) as Hall.
    rewrite Forall_forall in Hall.
    destruct (Hall c Hc) as (Hk & Hp & s & e & Hs & He & Hse & Hlen & Htxt).
    split.
    + unfold isSymbolChunk, hasType in Hk.
      intros [Ht | Ht]; rewrite Ht in Hk; discriminate.
    + intros _; exists file, s, e; auto 10.
Qed.

End Assembler.

(** ** Regions that reach the end of the file *)

Section OpenRegions.

Context {host : JsHost}.
Variable repoInfo : GitHubRepositoryInfo.
Variable file : GitHubFile.

Lemma scanLines_app (ls1 ls2 : list jsstring) (i : Z) (st : scanState) :
  scanLines repoInfo file i (ls1 ++ ls2) st =
  match scanLines repoInfo file i ls1 st with
  | inl st' => scanLines repoInfo file (i + Z.of_nat (length ls1)) ls2 st'
  | inr chunks => inr chunks
  end.
Proof.
  revert i st; induction ls1 as [|line ls1 IH]; intros i st.
  - simpl; rewrite Z.add_0_r; reflexivity.
  - cbn [scanLines app].
    destruct (scanLine repoInfo file i line st) as [st'|chunks];
      [|reflexivity].
    rewrite IH; simpl length.
    replace (i + 1 + Z.of_nat (length ls1))%Z
      with (i + Z.of_nat (S (length ls1)))%Z by lia.
    reflexivity.
Qed.

Lemma closesRegion_trim (r : Region.t) (line : jsstring) :
  closesRegion r line = str_eqb (trim line) (lit "}").
Proof.
  unfold closesRegion; rewrite regex_test_closingBrace.
  destruct (Region.isClass r), (str_eqb (trim line) (lit "}")); reflexivity.
Qed.

(** Lines that are not a lone closing brace leave the region open and are
    collected in it. *)
Lemma scanLines_stays_open (ls : list jsstring) (i : Z)
    (chunks : list CodeChunk) (r : Region.t) :
  (forall line, In line ls -> trim line <> lit "}") ->
  scanLines repoInfo file i ls (chunks, Some r) =
  inl (chunks,
       Some (Region.mk (Region.name r) (Region.content r ++ ls)
               (Region.startLine r) (Region.endLine r) (Region.isClass r))).
Proof.
  revert i r; induction ls as [|line ls IH]; intros i r Hno.
  - simpl; rewrite app_nil_r; destruct r; reflexivity.
  - cbn [scanLines]; unfold scanLine.
    fold (closesRegion r line); rewrite closesRegion_trim.
    destruct (str_eqb (trim line) (lit "}")) eqn:E.
    + apply str_eqb_eq in E; exfalso; apply (Hno line); [left; reflexivity|].
      exact E.
    + rewrite IH by (intros l Hl; apply Hno; right; exact Hl).
      simpl; rewrite <- app_assoc; reflexivity.
Qed.

Lemma nth_error_split_lines (lines : list jsstring) (k : nat)
    (line : jsstring) :
  nth_error lines k = Some line ->
  lines = firstn k lines ++ line :: skipn (S k) lines /\
  length (firstn k lines) = k /\
  skipn k lines = line :: skipn (S k) lines.
Proof.
  revert k; induction lines as [|l lines IH]; intros [|k]; simpl;
    try discriminate.
  - intros E; injection E as ->; auto.
  - intros E; destruct (IH k E) as (H1 & H2 & H3).
    split; [f_equal; exact H1|]. split; [congruence | exact H3].
Qed.

Lemma In_skipn_nth_error (lines : list jsstring) (k : nat) (l : jsstring) :
  In l (skipn (S k) lines) ->
  exists j, (k < j)%nat /\ nth_error lines j = Some l.
Proof.
  revert k; induction lines as [|x lines IH]; intros k; simpl skipn;
    [intros []|].
  destruct k as [|k].
  - intros Hin; apply In_nth_error in Hin as [j Hj].
    exists (S j); split; [lia | exact Hj].
  - intros Hin; apply IH in Hin as (j & Hlt & Hj).
    exists (S j); split; [lia | exact Hj].
Qed.

(** C7. In a file that is not skipped and has a programming language, when
    line [k] opens a region (no region is open there and the line matches
    the class or the function pattern) and no later line is a lone closing
    brace, [createCodeChunks] ends with the chunk of that region: it starts
    at [k], its [endLine] is the index of the last line, and it holds the
    lines from [k] to the end; it is a class chunk when the line matches
    the class pattern and a function chunk otherwise. *)
Theorem open_region_ends_at_last_line (k : nat) (line : jsstring)
    (chunks0 : list CodeChunk) :
  let lines := fileLines file in
  shouldSkipFile file = false ->
  isProgrammingFile file = true ->
  nth_error lines k = Some line ->
  scanLines repoInfo file 0 (firstn k lines) ([], None) = inl (chunks0, None) ->
  regex_match line classPattern <> None \/
  regex_match line functionPattern <> None ->
  (forall (j : nat) (l : jsstring),
      (k < j)%nat -> nth_error lines j = Some l -> trim l <> lit "}") ->
  exists chunk : CodeChunk,
    createCodeChunks repoInfo file = chunks0 ++ [chunk] /\
    processFiles repoInfo [file] =
      createFileChunks repoInfo file ++ chunks0 ++ [chunk] /\
    Chunk.type chunk =
      match regex_match line classPattern with
      | Some _ => CLASS
      | None => FUNCTION
      end /\
    Meta.startLine (Chunk.metadata chunk) = Some (Z.of_nat k) /\
    Meta.endLine (Chunk.metadata chunk) =
      Some (Z.of_nat (length lines) - 1)%Z /\
    Chunk.content chunk = join [nl] (skipn k lines).
Proof.
  intros lines.
  assert (El : fileLines file = lines) by reflexivity.
  clearbody lines; intros Hskip Hprog Hk Hpre Hopen Hno.
  destruct (nth_error_split_lines lines k line Hk) as (Hsplit & Hlen & Hskipn).
  assert (Hrest : forall l, In l (skipn (S k) lines) -> trim l <> lit "}").
  { intros l Hl; apply In_skipn_nth_error in Hl as (j & Hj & Hn); eauto. }
  assert (Hscan : exists (g : jsstring) (b : bool),
    scanLines repoInfo file 0
      (firstn k lines ++ line :: skipn (S k) lines) ([], None) =
    inl (chunks0,
         Some (Region.mk (Some g) (line :: skipn (S k) lines)
                 (Z.of_nat k) (-1) b)) /\
    (if b then CLASS else FUNCTION) =
      match regex_match line classPattern with
      | Some _ => CLASS
      | None => FUNCTION
      end).
  { rewrite scanLines_app, Hpre, Hlen.
    cbn [scanLines]; unfold scanLine.
    destruct (regex_match line classPattern) as [m|] eqn:Ec.
    - destruct (regex_match_group1 classPattern line m eq_refl Ec) as [g Hg].
      exists g, true; rewrite scanLines_stays_open by exact Hrest.
      simpl; rewrite Hg; split; reflexivity.
    - destruct (regex_match line functionPattern) as [m|] eqn:Ef;
        [|destruct Hopen; congruence].
      destruct (regex_match_group1 functionPattern line m eq_refl Ef)
        as [g Hg].
      exists g, false; rewrite scanLines_stays_open by exact Hrest.
      simpl; rewrite Hg; split; reflexivity. }
  destruct Hscan as (g & b & Hscan & Hkind).
  rewrite <- Hsplit in Hscan.
  assert (Hcode : exists chunk,
    createCodeChunks repoInfo file = chunks0 ++ [chunk] /\
    Chunk.type chunk =
      match regex_match line classPattern with
      | Some _ => CLASS
      | None => FUNCTION
      end /\
    Meta.startLine (Chunk.metadata chunk) = Some (Z.of_nat k) /\
    Meta.endLine (Chunk.metadata chunk) =
      Some (Z.of_nat (length lines) - 1)%Z /\
    Chunk.content chunk = join [nl] (skipn k lines)).
  { unfold createCodeChunks; fold (fileLines file); rewrite El.
    rewrite Hscan; unfold regionChunk; cbn [Region.name].
    eexists; split; [reflexivity|].
    cbn [Chunk.metadata Chunk.content Chunk.type Meta.startLine Meta.endLine
         Region.startLine Region.endLine Region.content Region.isClass].
    rewrite Hskipn; repeat split; exact Hkind. }
  destruct Hcode as (chunk & Hcode & Hrestc).
  exists chunk; split; [exact Hcode|].
  split; [|exact Hrestc].
  rewrite processFiles_one, Hskip, Hprog, Hcode; reflexivity.
Qed.

End OpenRegions.

(** ** Regression inputs of the detector *)

Section Regression.

Context {host : JsHost}.
Variable repoInfo : GitHubRepositoryInfo.

Lemma createFileChunks_no_symbols (file : GitHubFile) :
  filter isSymbolChunk (createFileChunks repoInfo file) = [].
Proof.
  unfold createFileChunks; destruct (isReadme file); reflexivity.
Qed.

Lemma createCodeChunks_fooSource (file : GitHubFile) :
  File.content file = fooSource ->
  createCodeChunks repoInfo file =
  [ Chunk.mk fooSource FUNCTION
      (determineUseCasesForSymbol (lit "foo") FUNCTION file)
      (Meta.mk repoInfo (File.path file) (File.language file)
         (Some 0%Z) (Some 2%Z) (Some (lit "foo"))) ].
Proof.
  intros E; unfold createCodeChunks; rewrite E; reflexivity.
Qed.

Lemma createCodeChunks_barSource (file : GitHubFile) :
  File.content file = barSource ->
  createCodeChunks repoInfo file =
  [ Chunk.mk (lit "class Bar {" ++ [nl] ++ lit "}") CLASS
      (determineUseCasesForSymbol (lit "Bar") CLASS file)
      (Meta.mk repoInfo (File.path file) (File.language file)
         (Some 0%Z) (Some 1%Z) (Some (lit "Bar"))) ].
Proof.
  intros E; unfold createCodeChunks; rewrite E; reflexivity.
Qed.

(** C6. A file that is not skipped and has a programming language gives,
    when its content is [function foo() {\n  return 1;\n}], exactly one
    symbol chunk: a [FUNCTION] named [foo] on lines 0 to 2; and when its
    content is [class Bar {\n}\n], exactly one symbol chunk: a [CLASS] named
    [Bar] on lines 0 to 1. *)
Theorem symbol_detector_regression (file : GitHubFile) :
  shouldSkipFile file = false ->
  isProgrammingFile file = true ->
  (File.content file = fooSource ->
   exists chunk : CodeChunk,
     filter isSymbolChunk (processFiles repoInfo [file]) = [chunk] /\
     Chunk.type chunk = FUNCTION /\
     Meta.symbolName (Chunk.metadata chunk) = Some (lit "foo") /\
     Meta.startLine (Chunk.metadata chunk) = Some 0%Z /\
     Meta.endLine (Chunk.metadata chunk) = Some 2%Z) /\
  (File.content file = barSource ->
   exists chunk : CodeChunk,
     filter isSymbolChunk (processFiles repoInfo [file]) = [chunk] /\
     Chunk.type chunk = CLASS /\
     Meta.symbolName (Chunk.metadata chunk) = Some (lit "Bar") /\
     Meta.startLine (Chunk.metadata chunk) = Some 0%Z /\
     Meta.endLine (Chunk.metadata chunk) = Some 1%Z).
Proof.
  intros Hskip Hprog.
  rewrite processFiles_one, Hskip, Hprog, filter_app,
    createFileChunks_no_symbols.
  split; intros E.
  - rewrite (createCodeChunks_fooSource file E).
    eexists; repeat split.
  - rewrite (createCodeChunks_barSource file E).
    eexists; repeat split.
Qed.

End Regression.

(** ** Owner and name of a repository reference *)

Lemma pop_snoc {A : Type} (l : list A) (x : A) :
  pop (l ++ [x]) = (Some x, l).
Proof.
  unfold pop; rewrite rev_app_distr; simpl; rewrite rev_involutive.
  reflexivity.
Qed.

(** With no owner and no name, the owner is the segment before the last one
    of the URL and the name is the last one after [replace('.git', '')]. *)
Lemma resolveRepoInfo_derived (url : jsstring) (branch : option jsstring)
    (segments : list jsstring) (owner name : jsstring) :
  split slash url = segments ++ [owner; name] ->
  resolveRepoInfo (Repo.mk url [] [] branch) =
  Repo.mk url owner (replace name (lit ".git") []) branch.
Proof.
  intros E; unfold resolveRepoInfo; cbn [Repo.owner Repo.name Repo.url].
  rewrite E.
  replace (2 <=? length (segments ++ [owner; name]))%nat with true
    by (symmetry; apply Nat.leb_le; rewrite length_app; simpl; lia).
  change (segments ++ [owner; name]) with (segments ++ [owner] ++ [name]).
  rewrite app_assoc, pop_snoc, pop_snoc.
  cbn [orElse Repo.branch]; f_equal; [destruct owner | destruct name];
    reflexivity.
Qed.

(** A name in which [.git] does not occur is kept. *)
Lemma replace_absent (s pat rep : jsstring) :
  includes s pat = false -> replace s pat rep = s.
Proof.
  induction s as [|c s IH]; simpl; intros H;
    apply orb_false_iff in H as [H1 H2]; rewrite H1; [reflexivity|].
  rewrite IH by exact H2; reflexivity.
Qed.

(** A trailing [.git] is removed when it is the first [.git] of the name. *)
Lemma replace_git_suffix (base : jsstring) :
  includes (base ++ lit ".gi") (lit ".git") = false ->
  replace (base ++ lit ".git") (lit ".git") [] = base.
Proof.
  induction base as [|c base IH]; [reflexivity|].
  cbn [app includes replace]; intros H.
  apply orb_false_iff in H as [H1 H2].
  assert (E : startsWith (c :: base ++ lit ".git") (lit ".git") = false).
  { destruct base as [|c1 [|c2 [|c3 base]]]; simpl in H1 |- *;
      try exact H1;
      repeat match goal with
             | |- context [N.eqb ?x ?y] => destruct (N.eqb x y); simpl
             end; reflexivity. }
  rewrite E, IH by exact H2; reflexivity.
Qed.

(** C9, on the code: the name is derived with [name.replace('.git', '')],
    which removes the first [.git] wherever it stands.  The reference
    [https://github.com/octocat/octocat.github.io] gets the name
    [octocathub.io], although its last segment has no trailing [.git]; a
    clone URL [.../octocat/hello.git] gets [hello]. *)
Theorem resolveRepoInfo_first_git_removed :
  Repo.owner (resolveRepoInfo pagesRepo) = lit "octocat" /\
  Repo.name (resolveRepoInfo pagesRepo) = lit "octocathub.io" /\
  endsWith (lit "octocat.github.io") (lit ".git") = false /\
  Repo.owner (resolveRepoInfo cloneUrlRepo) = lit "octocat" /\
  Repo.name (resolveRepoInfo cloneUrlRepo) = lit "hello".
Proof. repeat split. Qed.

(** * Further properties of the chunker *)

(** ** The scanning loop never fails, and its chunks never overlap *)

Section Scanning.

Context {host : JsHost}.
Variable repoInfo : GitHubRepositoryInfo.
Variable file : GitHubFile.

Lemma regionChunk_named (r : Region.t) :
  Region.name r <> None -> exists c, regionChunk repoInfo file r = Some c.
Proof.
  unfold regionChunk; destruct (Region.name r) as [name|]; [|congruence].
  intros _; eexists; reflexivity.
Qed.

(** One iteration with a named open region ends normally and leaves a named
    open region. *)
Lemma scanLine_total (i : Z) (line : jsstring) (chunks : list CodeChunk)
    (cur : option Region.t) :
  namedRegion cur ->
  exists chunks' cur',
    scanLine repoInfo file i line (chunks, cur) = inl (chunks', cur') /\
    namedRegion cur'.
Proof.
  intros Hn; unfold scanLine.
  destruct cur as [r|].
  - destruct (_ || _).
    + match goal with
      | |- context [regionChunk _ _ ?r'] =>
          destruct (regionChunk_named r' Hn) as [c ->]
      end.
      do 2 eexists; split; [reflexivity | exact I].
    + do 2 eexists; split; [reflexivity | exact Hn].
  - destruct (regex_match line classPattern) as [m|] eqn:Ec.
    + destruct (regex_match_group1 classPattern line m eq_refl Ec) as [g Hg].
      do 2 eexists; split; [reflexivity|]; simpl; congruence.
    + destruct (regex_match line functionPattern) as [m|] eqn:Ef.
      * destruct (regex_match_group1 functionPattern line m eq_refl Ef)
          as [g Hg].
        do 2 eexists; split; [reflexivity|]; simpl; congruence.
      * do 2 eexists; split; [reflexivity | exact I].
Qed.

Lemma scanLines_total (lines : list jsstring) :
  forall (i : Z) (chunks : list CodeChunk) (cur : option Region.t),
    namedRegion cur ->
    exists chunks' cur',
      scanLines repoInfo file i lines (chunks, cur) = inl (chunks', cur') /\
      namedRegion cur'.
Proof.
  induction lines as [|line lines IH]; intros i chunks cur Hn.
  - exists chunks, cur; split; [reflexivity | exact Hn].
  - cbn [scanLines].
    destruct (scanLine_total i line chunks cur Hn) as (ch & cu & -> & Hn').
    apply IH; exact Hn'.
Qed.

(** A property of every chunk built from a region holds of every chunk
    [createCodeChunks] returns. *)
Lemma scanLines_Forall (P : CodeChunk -> Prop) :
  (forall r c, regionChunk repoInfo file r = Some c -> P c) ->
  forall (lines : list jsstring) (i : Z) (st : scanState),
    Forall P (fst st) ->
    match scanLines repoInfo file i lines st with
    | inl (chunks', _) => Forall P chunks'
    | inr chunks' => Forall P chunks'
    end.
Proof.
  intros HP lines; induction lines as [|line lines IH];
    intros i [chunks cur] Hch; simpl fst in Hch.
  - exact Hch.
  - cbn [scanLines].
    assert (Hstep : match scanLine repoInfo file i line (chunks, cur) with
                    | inl st' => Forall P (fst st')
                    | inr chunks' => Forall P chunks'
                    end).
    { unfold scanLine; destruct cur as [r|].
      - destruct (_ || _); [|exact Hch].
        match goal with
        | |- context [regionChunk _ _ ?r'] =>
            destruct (regionChunk repoInfo file r') as [c|] eqn:Ec
        end; [|exact Hch].
        simpl; apply Forall_app; split; [exact Hch|].
        constructor; [eapply HP; exact Ec | constructor].
      - destruct (regex_match line classPattern);
          [exact Hch|].
        destruct (regex_match line functionPattern); exact Hch. }
    destruct (scanLine repoInfo file i line (chunks, cur)) as [st'|chunks'];
      [apply IH; exact Hstep | exact Hstep].
Qed.

Lemma createCodeChunks_Forall (P : CodeChunk -> Prop) :
  (forall r c, regionChunk repoInfo file r = Some c -> P c) ->
  Forall P (createCodeChunks repoInfo file).
Proof.
  intros HP; unfold createCodeChunks.
  pose proof (scanLines_Forall P HP (split nl (File.content file)) 0
                ([], None) (Forall_nil _)) as H.
  destruct (scanLines repoInfo file 0 (split nl (File.content file))
              ([], None)) as [[chunks [r|]]|chunks]; try exact H.
  match goal with
  | |- context [regionChunk _ _ ?r'] =>
      destruct (regionChunk repoInfo file r') as [c|] eqn:Ec
  end; [|exact H].
  apply Forall_app; split; [exact H|].
  constructor; [eapply HP; exact Ec | constructor].
Qed.

(** X1. The [catch] of [createCodeChunks] is never reached: for every file
    the loop over the lines ends normally, a region still open at the end of
    the file is always emitted as the last chunk, and every chunk returned
    carries a [symbolName]. *)
Theorem createCodeChunks_never_throws :
  (exists (chunks : list CodeChunk) (cur : option Region.t),
      scanLines repoInfo file 0 (fileLines file) ([], None)
      = inl (chunks, cur) /\
      match cur with
      | None => createCodeChunks repoInfo file = chunks
      | Some r =>
          exists c : CodeChunk,
            createCodeChunks repoInfo file = chunks ++ [c] /\
            Meta.startLine (Chunk.metadata c) = Some (Region.startLine r)
      end) /\
  Forall (fun c => Meta.symbolName (Chunk.metadata c) <> None)
    (createCodeChunks repoInfo file).
Proof.
  split.
  - destruct (scanLines_total (fileLines file) 0 [] None I)
      as (chunks & cur & Hscan & Hn).
    exists chunks, cur; split; [exact Hscan|].
    unfold createCodeChunks; fold (fileLines file); rewrite Hscan.
    destruct cur as [r|]; [|reflexivity].
    match goal with
    | |- context [regionChunk _ _ ?r'] =>
        destruct (regionChunk_named r' Hn) as [c Hc]
    end.
    rewrite Hc; exists c; split; [reflexivity|].
    apply regionChunk_Some in Hc as (_ & _ & _ & Hs & _); exact Hs.
  - apply createCodeChunks_Forall.
    intros r c Hc.
    pose proof Hc as Hc'.
    apply regionChunk_Some in Hc as (_ & _ & _ & _ & _ & Hname & _).
    rewrite Hname; unfold regionChunk in Hc'.
    destruct (Region.name r); [discriminate | discriminate].
Qed.

Lemma ForallOrdPairs_snoc (A : Type) (R : A -> A -> Prop) (l : list A)
    (x : A) :
  ForallOrdPairs R l -> Forall (fun y => R y x) l ->
  ForallOrdPairs R (l ++ [x]).
Proof.
  induction 1 as [|y l Hy Hl IH]; intros Hx; simpl.
  - constructor; [constructor | constructor].
  - inversion Hx as [|? ? Hyx Hlx]; subst.
    constructor; [|apply IH; exact Hlx].
    apply Forall_app; split; [exact Hy | constructor; [exact Hyx | constructor]].
Qed.

Lemma endsBefore_le (b b' : Z) (c : CodeChunk) :
  (b <= b')%Z -> endsBefore b c -> endsBefore b' c.
Proof. intros Hb (e & He & Hlt); exists e; split; [exact He | lia]. Qed.

(** The chunk of a region starts after every chunk emitted before it. *)
Lemma regionChunk_after (chunks : list CodeChunk) (r : Region.t)
    (c : CodeChunk) :
  regionChunk repoInfo file r = Some c ->
  Forall (endsBefore (Region.startLine r)) chunks ->
  Forall (fun y => chunkBefore y c) chunks.
Proof.
  intros Hc Hall.
  apply regionChunk_Some in Hc as (_ & _ & _ & Hs & _).
  eapply Forall_impl; [|exact Hall].
  intros y (e & He & Hlt); exists e, (Region.startLine r); auto.
Qed.

(** One iteration keeps the chunks in line order, all of them before the
    open region or, when none is open, before the next line. *)
Lemma scanLine_ordered (i : Z) (line : jsstring) (chunks : list CodeChunk)
    (cur : option Region.t) :
  ForallOrdPairs chunkBefore chunks ->
  Forall (endsBefore (scanBound i cur)) chunks ->
  (scanBound i cur <= i)%Z ->
  match scanLine repoInfo file i line (chunks, cur) with
  | inl (chunks', cur') =>
      ForallOrdPairs chunkBefore chunks' /\
      Forall (endsBefore (scanBound (i + 1) cur')) chunks' /\
      (scanBound (i + 1) cur' <= i + 1)%Z
  | inr chunks' => ForallOrdPairs chunkBefore chunks'
  end.
Proof.
  intros Hord Hend Hb; unfold scanLine.
  destruct cur as [r|]; simpl scanBound in *.
  - destruct (_ || _).
    + match goal with
      | |- context [regionChunk _ _ ?r'] =>
          destruct (regionChunk repoInfo file r') as [c|] eqn:Ec
      end; [|exact Hord].
      simpl scanBound.
      pose proof (regionChunk_after chunks _ c Ec Hend) as Hafter.
      apply regionChunk_Some in Ec as (_ & _ & _ & _ & He & _).
      simpl in He.
      split; [apply ForallOrdPairs_snoc; assumption|].
      split; [|lia].
      apply Forall_app; split.
      * eapply Forall_impl; [|exact Hend].
        intros y; apply endsBefore_le; lia.
      * constructor; [|constructor].
        exists i; split; [exact He | lia].
    + simpl scanBound; split; [exact Hord|]. split; [exact Hend | lia].
  - destruct (regex_match line classPattern).
    { simpl scanBound; split; [exact Hord|]. split; [exact Hend | lia]. }
    destruct (regex_match line functionPattern).
    { simpl scanBound; split; [exact Hord|]. split; [exact Hend | lia]. }
    simpl scanBound; split; [exact Hord|]. split; [|lia].
    eapply Forall_impl; [|exact Hend].
    intros y; apply endsBefore_le; lia.
Qed.

Lemma scanLines_ordered (lines : list jsstring) :
  forall (i : Z) (chunks : list CodeChunk) (cur : option Region.t),
    ForallOrdPairs chunkBefore chunks ->
    Forall (endsBefore (scanBound i cur)) chunks ->
    (scanBound i cur <= i)%Z ->
    match scanLines repoInfo file i lines (chunks, cur) with
    | inl (chunks', cur') =>
        ForallOrdPairs chunkBefore chunks' /\
        Forall (endsBefore (scanBound (i + Z.of_nat (length lines)) cur'))
          chunks'
    | inr chunks' => ForallOrdPairs chunkBefore chunks'
    end.
Proof.
  induction lines as [|line lines IH]; intros i chunks cur Hord Hend Hb.
  - simpl; rewrite Z.add_0_r; auto.
  - cbn [scanLines].
    pose proof (scanLine_ordered i line chunks cur Hord Hend Hb) as Hstep.
    destruct (scanLine repoInfo file i line (chunks, cur))
      as [[chunks' cur']|chunks']; [|exact Hstep].
    destruct Hstep as (Hord' & Hend' & Hb').
    specialize (IH (i + 1)%Z chunks' cur' Hord' Hend' Hb').
    replace (i + Z.of_nat (length (line :: lines)))%Z
      with (i + 1 + Z.of_nat (length lines))%Z by (simpl length; lia).
    exact IH.
Qed.

(** X2. The class and function chunks of a file never overlap and come in
    line order: of any two chunks [createCodeChunks] returns, the earlier one
    ends on a line strictly before the line the later one starts on. *)
Theorem createCodeChunks_disjoint_ordered :
  ForallOrdPairs chunkBefore (createCodeChunks repoInfo file).
Proof.
  unfold createCodeChunks.
  pose proof (scanLines_ordered (split nl (File.content file)) 0 [] None
                (FOP_nil _) (Forall_nil _) (Z.le_refl _)) as H.
  destruct (scanLines repoInfo file 0 (split nl (File.content file))
              ([], None)) as [[chunks [r|]]|chunks]; try tauto.
  destruct H as [Hord Hend]; simpl scanBound in Hend.
  match goal with
  | |- context [regionChunk _ _ ?r'] =>
      destruct (regionChunk repoInfo file r') as [c|] eqn:Ec
  end; [|exact Hord].
  apply ForallOrdPairs_snoc; [exact Hord|].
  apply (regionChunk_after chunks _ c Ec); exact Hend.
Qed.

End Scanning.

(** ** The chunks of a whole file list *)

Section Output.

Context {host : JsHost}.
Variable repoInfo : GitHubRepositoryInfo.

Lemma createFileChunks_FILE (file : GitHubFile) :
  map (fun c => (Meta.filePath (Chunk.metadata c), Chunk.content c))
    (filter (hasType FILE) (createFileChunks repoInfo file))
  = [(File.path file, File.content file)].
Proof.
  unfold createFileChunks; destruct (isReadme file); reflexivity.
Qed.

Lemma createFileChunks_SUMMARY (file : GitHubFile) :
  map (fun c => (Meta.filePath (Chunk.metadata c), Chunk.content c))
    (filter (hasType SUMMARY) (createFileChunks repoInfo file))
  = if isReadme file then [(File.path file, File.content file)] else [].
Proof.
  unfold createFileChunks; destruct (isReadme file); reflexivity.
Qed.

(** X3. Over a whole input list, the [FILE] chunks of [processFiles] are, in
    input order, the files that are not skipped, each with its path and its
    whole text; the [SUMMARY] chunks are, in input order, those of them that
    pass the README test.  Nothing is reordered, merged or dropped. *)
Theorem processFiles_file_chunks_in_order (files : list GitHubFile) :
  map (fun c => (Meta.filePath (Chunk.metadata c), Chunk.content c))
    (filter (hasType FILE) (processFiles repoInfo files))
  = map (fun f => (File.path f, File.content f))
      (filter (fun f => negb (shouldSkipFile f)) files) /\
  map (fun c => (Meta.filePath (Chunk.metadata c), Chunk.content c))
    (filter (hasType SUMMARY) (processFiles repoInfo files))
  = map (fun f => (File.path f, File.content f))
      (filter (fun f => negb (shouldSkipFile f) && isReadme f) files).
Proof.
  induction files as [|file files [IH1 IH2]]; [split; reflexivity|].
  change (file :: files) with ([file] ++ files).
  rewrite processFiles_app, !filter_app, !map_app.
  rewrite !filter_symbols by auto.
  split; (apply (f_equal2 (@app _)); [|assumption]); cbn [filter].
  - destruct (shouldSkipFile file); [reflexivity|].
    apply createFileChunks_FILE.
  - destruct (shouldSkipFile file); [reflexivity|].
    rewrite createFileChunks_SUMMARY.
    destruct (isReadme file); reflexivity.
Qed.

Lemma In_processFiles_source (files : list GitHubFile) (c : CodeChunk) :
  In c (processFiles repoInfo files) ->
  exists file : GitHubFile,
    In file files /\ shouldSkipFile file = false /\
    (In c (createFileChunks repoInfo file) \/
     isProgrammingFile file = true /\
     In c (createCodeChunks repoInfo file)).
Proof.
  induction files as [|file files IH].
  - intros [].
  - change (file :: files) with ([file] ++ files).
    rewrite processFiles_app, in_app_iff, processFiles_one.
    intros [H | H].
    + exists file; split; [left; reflexivity|].
      destruct (shouldSkipFile file); [destruct H|].
      split; [reflexivity|].
      apply in_app_iff in H as [H | H]; [left; exact H|].
      destruct (isProgrammingFile file); [right; auto | destruct H].
    + destruct (IH H) as (f & Hin & Hrest).
      exists f; split; [right; exact Hin | exact Hrest].
Qed.

(** X4. Every chunk of [processFiles] comes from an input file that is not
    skipped: it carries [this.repoInfo] and the path and language of that
    file; a [FILE] or [SUMMARY] chunk holds the whole text of the file, and a
    [CLASS] or [FUNCTION] chunk only comes from a file whose language is one
    of the programming languages. *)
Theorem processFiles_provenance (files : list GitHubFile) :
  Forall
    (fun c =>
       exists file : GitHubFile,
         In file files /\ shouldSkipFile file = false /\
         Meta.repositoryInfo (Chunk.metadata c) = repoInfo /\
         Meta.filePath (Chunk.metadata c) = File.path file /\
         Meta.language (Chunk.metadata c) = File.language file /\
         (isSymbolChunk c = false -> Chunk.content c = File.content file) /\
         (isSymbolChunk c = true -> isProgrammingFile file = true))
    (processFiles repoInfo files).
Proof.
  apply Forall_forall; intros c Hc.
  apply In_processFiles_source in Hc as (file & Hin & Hskip & Hc).
  exists file; split; [exact Hin|]. split; [exact Hskip|].
  destruct Hc as [Hc | [Hprog Hc]].
  - unfold createFileChunks in Hc.
    destruct (isReadme file); simpl in Hc;
      repeat destruct Hc as [<- | Hc]; try destruct Hc; simpl;
      repeat split; auto; discriminate.
  - pose proof (createCodeChunks_Forall repoInfo file
      (fun c => isSymbolChunk c = true /\
                Meta.repositoryInfo (Chunk.metadata c) = repoInfo /\
                Meta.filePath (Chunk.metadata c) = File.path file /\
                Meta.language (Chunk.metadata c) = File.language file))
      as Hall.
    rewrite Forall_forall in Hall.
    destruct (Hall) with (x := c) as (Hk & Hr & Hp & Hl); [|exact Hc|].
    + intros r c' Hc'; unfold regionChunk in Hc'.
      destruct (Region.name r); [|discriminate].
      injection Hc' as <-; simpl.
      destruct (Region.isClass r); repeat split; reflexivity.
    + repeat split; auto; congruence.
Qed.

Lemma rule_lists_shape (b c e : bool) :
  let l := (if b then [BUG_FIXING] else []) ++
           (if c then [CODE_GENERATION] else []) ++
           (if e then [EXPLANATION] else []) in
  let l' := if Nat.eqb (length l) 0
            then l ++ [BUG_FIXING; CODE_GENERATION; EXPLANATION] else l in
  l' <> [] /\ NoDup l' /\
  exists b' c' e' : bool,
    l' = (if b' then [BUG_FIXING] else []) ++
         (if c' then [CODE_GENERATION] else []) ++
         (if e' then [EXPLANATION] else []).
Proof.
  destruct b, c, e; simpl; (split; [discriminate|]);
    (split; [repeat constructor; simpl; intuition discriminate|]).
  - exists true, true, true; reflexivity.
  - exists true, true, false; reflexivity.
  - exists true, false, true; reflexivity.
  - exists true, false, false; reflexivity.
  - exists false, true, true; reflexivity.
  - exists false, true, false; reflexivity.
  - exists false, false, true; reflexivity.
  - exists true, true, true; reflexivity.
Qed.

Lemma determineUseCases_shape (file : GitHubFile) :
  determineUseCases file <> [] /\ NoDup (determineUseCases file) /\
  exists b c e : bool,
    determineUseCases file =
      (if b then [BUG_FIXING] else []) ++
      (if c then [CODE_GENERATION] else []) ++
      (if e then [EXPLANATION] else []).
Proof.
  unfold determineUseCases, fileRuleUseCases.
  match goal with
  | |- context [if ?b then [] ++ [BUG_FIXING] else []] => set (x := b)
  end.
  match goal with
  | |- context [if ?b then _ ++ [CODE_GENERATION] else _] => set (y := b)
  end.
  match goal with
  | |- context [if ?b then _ ++ [EXPLANATION] else _] => set (z := b)
  end.
  pose proof (rule_lists_shape x y z) as H.
  destruct x, y, z; exact H.
Qed.

Lemma determineUseCasesForSymbol_shape (symbolName : jsstring)
    (chunkType : ChunkType) (file : GitHubFile) :
  determineUseCasesForSymbol symbolName chunkType file <> [] /\
  NoDup (determineUseCasesForSymbol symbolName chunkType file) /\
  exists b c e : bool,
    determineUseCasesForSymbol symbolName chunkType file =
      (if b then [BUG_FIXING] else []) ++
      (if c then [CODE_GENERATION] else []) ++
      (if e then [EXPLANATION] else []).
Proof.
  unfold determineUseCasesForSymbol, symbolRuleUseCases.
  match goal with
  | |- context [if ?b then [] ++ [BUG_FIXING] else []] => set (x := b)
  end.
  match goal with
  | |- context [if ?b then _ ++ [CODE_GENERATION] else _] => set (y := b)
  end.
  match goal with
  | |- context [if ?b then _ ++ [EXPLANATION] else _] => set (z := b)
  end.
  pose proof (rule_lists_shape x y z) as H.
  destruct x, y, z; exact H.
Qed.

(** X5. Every chunk of [processFiles] carries a use-case list that is not
    empty, names no label twice, and lists its labels in the fixed order
    [BUG_FIXING], [CODE_GENERATION], [EXPLANATION]. *)
Theorem processFiles_useCases_wellformed (files : list GitHubFile) :
  Forall
    (fun chunk =>
       Chunk.useCases chunk <> [] /\ NoDup (Chunk.useCases chunk) /\
       exists b c e : bool,
         Chunk.useCases chunk =
           (if b then [BUG_FIXING] else []) ++
           (if c then [CODE_GENERATION] else []) ++
           (if e then [EXPLANATION] else []))
    (processFiles repoInfo files).
Proof.
  apply Forall_forall; intros chunk Hc.
  apply In_processFiles_source in Hc as (file & _ & _ & [Hc | [_ Hc]]).
  - unfold createFileChunks in Hc.
    destruct (isReadme file); simpl in Hc;
      repeat destruct Hc as [<- | Hc]; try destruct Hc; simpl;
      try apply determineUseCases_shape.
    split; [discriminate|].
    split; [repeat constructor; simpl; tauto|].
    exists false, false, true; reflexivity.
  - pose proof (createCodeChunks_Forall repoInfo file
      (fun chunk =>
         exists name type,
           Chunk.useCases chunk = determineUseCasesForSymbol name type file))
      as Hall.
    rewrite Forall_forall in Hall.
    destruct (Hall) with (x := chunk) as (name & type & ->); [|exact Hc|].
    + intros r c' Hc'; unfold regionChunk in Hc'.
      destruct (Region.name r) as [name|]; [|discriminate].
      injection Hc' as <-; simpl; eauto.
    + apply determineUseCasesForSymbol_shape.
Qed.

Lemma determineUseCasesForSymbol_CLASS (symbolName : jsstring)
    (file : GitHubFile) :
  let lower := toLowerCase symbolName in
  let useCases := determineUseCasesForSymbol symbolName CLASS file in
  useCases = symbolRuleUseCases symbolName CLASS file /\
  In CODE_GENERATION useCases /\
  (In EXPLANATION useCases <->
   startsWith lower (lit "_") = false /\
   includes lower (lit "internal") = false /\
   includes lower (lit "private") = false).
Proof.
  intros lower useCases; unfold useCases, determineUseCasesForSymbol,
    symbolRuleUseCases; fold lower.
  cbn [ChunkType_eqb]; rewrite !orb_true_r, !andb_true_r.
  destruct (includes lower (lit "error") ||
            includes lower (lit "exception") ||
            includes lower (lit "handle") ||
            includes lower (lit "process") ||
            includes lower (lit "validate"));
    destruct (startsWith lower (lit "_"));
    destruct (includes lower (lit "internal"));
    destruct (includes lower (lit "private"));
    cbn; (split; [reflexivity|]); (split; [tauto|]);
    split; intros H; try (repeat split; reflexivity); try tauto;
    try (destruct H as (? & ? & ?); discriminate);
    repeat (destruct H as [H | H]; try discriminate); try destruct H.
Qed.

(** X16. Every [CLASS] chunk of [processFiles] is labelled
    [CODE_GENERATION], so the fallback to all three labels is never taken
    for a class; it is labelled [EXPLANATION] exactly when its name, in lower
    case, neither starts with [_] nor contains [internal] or [private]. *)
Theorem processFiles_class_labels (files : list GitHubFile) :
  Forall
    (fun c =>
       Chunk.type c = CLASS ->
       exists (file : GitHubFile) (name : jsstring),
         In file files /\
         Meta.symbolName (Chunk.metadata c) = Some name /\
         Chunk.useCases c = symbolRuleUseCases name CLASS file /\
         In CODE_GENERATION (Chunk.useCases c) /\
         (In EXPLANATION (Chunk.useCases c) <->
          startsWith (toLowerCase name) (lit "_") = false /\
          includes (toLowerCase name) (lit "internal") = false /\
          includes (toLowerCase name) (lit "private") = false))
    (processFiles repoInfo files).
Proof.
  apply Forall_forall; intros c Hc Ht.
  apply In_processFiles in Hc as (file & Hin & _ & [Hc | Hc]).
  - exfalso; unfold createFileChunks in Hc.
    destruct (isReadme file); simpl in Hc;
      repeat (destruct Hc as [Hc | Hc]; [subst c; discriminate|]);
      destruct Hc.
  - revert Ht.
    pose proof (createCodeChunks_Forall repoInfo file
      (fun c =>
         Chunk.type c = CLASS ->
         exists (file' : GitHubFile) (name : jsstring),
           In file' files /\
           Meta.symbolName (Chunk.metadata c) = Some name /\
           Chunk.useCases c = symbolRuleUseCases name CLASS file' /\
           In CODE_GENERATION (Chunk.useCases c) /\
           (In EXPLANATION (Chunk.useCases c) <->
            startsWith (toLowerCase name) (lit "_") = false /\
            includes (toLowerCase name) (lit "internal") = false /\
            includes (toLowerCase name) (lit "private") = false))) as H.
    rewrite Forall_forall in H; apply H; [|exact Hc].
    intros r c' Hr Ht; unfold regionChunk in Hr.
    destruct (Region.name r) as [name|]; [|discriminate].
    injection Hr as <-; cbn in Ht |- *.
    destruct (Region.isClass r); [|discriminate].
    exists file, name; split; [exact Hin|]. split; [reflexivity|].
    apply determineUseCasesForSymbol_CLASS.
Qed.

End Output.

(** ** Lines that close a region, and lines that open none *)

Lemma trimStart_decomp (s : jsstring) :
  exists a : jsstring,
    s = a ++ trimStart s /\ forallb isWhiteSpace a = true.
Proof.
  induction s as [|c s (a & Ha & Hws)]; simpl.
  - exists []; auto.
  - destruct (isWhiteSpace c) eqn:Hc.
    + exists (c :: a); simpl; rewrite Hc, Hws; split; [congruence | reflexivity].
    + exists []; auto.
Qed.

Lemma trimStart_app_ws (a s : jsstring) :
  forallb isWhiteSpace a = true -> trimStart (a ++ s) = trimStart s.
Proof.
  induction a as [|c a IH]; simpl; [reflexivity|].
  intros H; apply andb_true_iff in H as [-> H]; exact (IH H).
Qed.

(** [trim] leaves a single non-blank character exactly for the strings made
    of that character with white space around it. *)
Lemma trim_single (c : jschar) (line : jsstring) :
  isWhiteSpace c = false ->
  (trim line = [c] <->
   exists a b : jsstring,
     line = a ++ [c] ++ b /\
     forallb isWhiteSpace a = true /\ forallb isWhiteSpace b = true).
Proof.
  intros Hc; unfold trim; split.
  - intros Ht.
    destruct (trimStart_decomp line) as (a & Ha & Hwa).
    exists a.
    pose proof (trimStart_head line) as Hh.
    destruct (trimStart line) as [|x t]; [discriminate|].
    rewrite trimEnd_cons in Ht by exact Hh.
    injection Ht as -> Ht.
    exists t; split; [exact Ha|]. split; [exact Hwa|].
    apply trimEnd_nil; exact Ht.
  - intros (a & b & -> & Hwa & Hwb).
    rewrite trimStart_app_ws by exact Hwa.
    simpl; rewrite Hc, trimEnd_cons by exact Hc.
    apply trimEnd_nil in Hwb; rewrite Hwb; reflexivity.
Qed.

Section Closing.

Context {host : JsHost}.
Variable repoInfo : GitHubRepositoryInfo.
Variable file : GitHubFile.

(** X6. Whether the open region is a class or a function, a line ends it
    exactly when it is a single closing brace with only white space around
    it ([/^\s*}\s*$/] and [trim() === '}'] accept the same lines); any other
    line is appended to the region, which stays open. *)
Theorem scanLine_closes_on_lone_brace (i : Z) (line : jsstring)
    (chunks : list CodeChunk) (r : Region.t) :
  (loneBrace line <->
   match scanLine repoInfo file i line (chunks, Some r) with
   | inl (_, Some _) => False
   | _ => True
   end) /\
  (~ loneBrace line ->
   scanLine repoInfo file i line (chunks, Some r) =
   inl (chunks,
        Some (Region.mk (Region.name r) (Region.content r ++ [line])
                (Region.startLine r) (Region.endLine r)
                (Region.isClass r)))).
Proof.
  assert (Hl : loneBrace line <-> closesRegion r line = true).
  { unfold loneBrace.
    rewrite <- (trim_single (chr "}") line eq_refl).
    unfold closesRegion; rewrite regex_test_closingBrace.
    change (lit "}") with [chr "}"].
    rewrite <- str_eqb_eq.
    destruct (Region.isClass r), (str_eqb (trim line) [chr "}"]);
      simpl; split; auto; discriminate. }
  unfold scanLine; fold (closesRegion r line).
  destruct (closesRegion r line).
  - split; [|intros Hn; exfalso; apply Hn, Hl; reflexivity].
    split; [|intros _; apply Hl; reflexivity].
    intros _.
    destruct (regionChunk repoInfo file _); exact I.
  - split; [|reflexivity].
    split; [intros H; apply Hl in H; discriminate | intros []].
Qed.

End Closing.

(** A successful match consumed a prefix of the input that holds every
    character the pattern requires. *)
Lemma star_consumed (p : jschar -> bool) (s : jsstring)
    (k : jsstring -> option mstate) (x : mstate) :
  star p s k = Some x ->
  exists pre s', s = pre ++ s' /\ k s' = Some x.
Proof.
  induction s as [|c s IH]; simpl.
  - intros H; exists [], []; auto.
  - destruct (p c); [|intros H; exists [], (c :: s); auto].
    destruct (star p s k) eqn:E.
    + intros H; injection H as ->.
      destruct (IH eq_refl) as (pre & s' & -> & Hk).
      exists (c :: pre), s'; auto.
    + intros H; exists [], (c :: s); auto.
Qed.

Lemma rmatch_consumed (c : jschar) (r : regex) :
  forall n s cap k x,
    rmatch n r s cap k = Some x ->
    exists pre s' cap',
      s = pre ++ s' /\ k s' cap' = Some x /\
      (requiresChar c r = true -> In c pre).
Proof.
  induction r as [c0|p|r1 IH1 r2 IH2|r1 IH1 r2 IH2|r1 IH1|p|p|r1 IH1| | |];
    intros n s cap k x; simpl.
  - destruct s as [|c' s]; [discriminate|].
    destruct (N.eqb_spec c' c0) as [->|]; [|discriminate].
    intros H; exists [c0], s, cap; split; [reflexivity|]. split; [exact H|].
    intros E; apply N.eqb_eq in E; left; exact E.
  - destruct s as [|c' s]; [discriminate|].
    destruct (p c'); [|discriminate].
    intros H; exists [c'], s, cap; repeat split; auto; discriminate.
  - intros H.
    apply IH1 in H as (pre1 & s1 & cap1 & -> & H & Hr1).
    apply IH2 in H as (pre2 & s2 & cap2 & -> & H & Hr2).
    exists (pre1 ++ pre2), s2, cap2.
    split; [apply app_assoc|]. split; [exact H|].
    intros E; apply orb_true_iff in E as [E | E]; apply in_app_iff; auto.
  - destruct (rmatch n r1 s cap k) eqn:E.
    + intros H; injection H as ->.
      apply IH1 in E as (pre & s' & cap' & Hs & Hk & Hr).
      exists pre, s', cap'; repeat split; auto.
      intros E'; apply andb_true_iff in E' as [E' _]; auto.
    + intros H; apply IH2 in H as (pre & s' & cap' & Hs & Hk & Hr).
      exists pre, s', cap'; repeat split; auto.
      intros E'; apply andb_true_iff in E' as [_ E']; auto.
  - destruct (rmatch n r1 s cap k) eqn:E.
    + intros H; injection H as ->.
      apply IH1 in E as (pre & s' & cap' & Hs & Hk & _).
      exists pre, s', cap'; repeat split; auto; discriminate.
    + intros H; exists [], s, cap; repeat split; auto; discriminate.
  - intros H; apply star_consumed in H as (pre & s' & -> & H).
    exists pre, s', cap; repeat split; auto; discriminate.
  - destruct s as [|c' s]; [discriminate|].
    destruct (p c'); [|discriminate].
    intros H; apply star_consumed in H as (pre & s' & -> & H).
    exists (c' :: pre), s', cap; repeat split; auto; discriminate.
  - intros H; apply IH1 in H as (pre & s' & cap' & -> & H & Hr).
    exists pre, s'; eexists; repeat split; [exact H | exact Hr].
  - destruct (Nat.eqb (length s) n); [|discriminate].
    intros H; exists [], s, cap; repeat split; auto; discriminate.
  - destruct s; [|discriminate].
    intros H; exists [], [], cap; repeat split; auto; discriminate.
  - intros H; exists [], s, cap; repeat split; auto; discriminate.
Qed.

(** A pattern that requires [c] matches no string without [c]. *)
Lemma regex_match_requires (c : jschar) (r : regex) (s : jsstring) :
  requiresChar c r = true -> ~ In c s -> regex_match s r = None.
Proof.
  intros Hr; unfold regex_match; generalize (length s) as n.
  induction s as [|x s IH]; intros n Hnot; cbn [exec_from];
    destruct (rmatch n r _ None _) as [[s' cap]|] eqn:E.
  - apply (rmatch_consumed c) in E as (pre & s1 & cap1 & Hs & _ & Hin).
    exfalso; apply Hnot; rewrite Hs; apply in_app_iff; left; auto.
  - reflexivity.
  - apply (rmatch_consumed c) in E as (pre & s1 & cap1 & Hs & _ & Hin).
    exfalso; apply Hnot; rewrite Hs; apply in_app_iff; left; auto.
  - apply IH; intros H; apply Hnot; right; exact H.
Qed.

(** The class pattern only matches where [class] or [interface] stands. *)
Lemma regex_match_classPattern_keyword (s : jsstring) :
  includes s (lit "class") = false ->
  includes s (lit "interface") = false ->
  regex_match s classPattern = None.
Proof.
  unfold regex_match; generalize (length s) as n.
  induction s as [|x s IH]; intros n Hc Hi;
    cbn [includes] in Hc, Hi;
    apply orb_false_iff in Hc as [Hc1 Hc2];
    apply orb_false_iff in Hi as [Hi1 Hi2];
    cbn [exec_from].
  - unfold classPattern, rlit; cbn [rseq ralt fold_right rmatch].
    rewrite !rmatch_rword, Hc1, Hi1; reflexivity.
  - unfold classPattern, rlit; cbn [rseq ralt fold_right rmatch].
    rewrite !rmatch_rword, Hc1, Hi1.
    apply (IH n Hc2 Hi2).
Qed.

Section QuietLines.

Context {host : JsHost}.
Variable repoInfo : GitHubRepositoryInfo.
Variable file : GitHubFile.

Lemma scanLines_quiet (lines : list jsstring) :
  forall (i : Z) (chunks : list CodeChunk),
    Forall (fun line =>
              regex_match line classPattern = None /\
              regex_match line functionPattern = None) lines ->
    scanLines repoInfo file i lines (chunks, None) = inl (chunks, None).
Proof.
  induction lines as [|line lines IH]; intros i chunks Hq; [reflexivity|].
  inversion Hq as [|? ? [Hc Hf] Hq']; subst.
  cbn [scanLines]; unfold scanLine; rewrite Hc, Hf.
  apply IH; exact Hq'.
Qed.

(** X7. A region only starts on a line that has an opening parenthesis or
    one of the words [class] and [interface]: a file none of whose lines has
    any of them gives no class or function chunk. *)
Theorem createCodeChunks_needs_keyword_or_paren :
  Forall (fun line =>
            ~ In (chr "(") line /\
            includes line (lit "class") = false /\
            includes line (lit "interface") = false)
    (fileLines file) ->
  createCodeChunks repoInfo file = [].
Proof.
  intros Hq; unfold createCodeChunks; fold (fileLines file).
  rewrite scanLines_quiet; [reflexivity|].
  eapply Forall_impl; [|exact Hq].
  intros line (Hp & Hc & Hi); split.
  - apply regex_match_classPattern_keyword; assumption.
  - apply (regex_match_requires (chr "(")); [reflexivity | exact Hp].
Qed.

End QuietLines.

(** ** The text of a chunk inside the text of its file *)

Lemma split_nonempty (sep : jschar) (s : jsstring) : split sep s <> [].
Proof.
  destruct s as [|c s]; simpl; [discriminate|].
  destruct (N.eqb c sep); [discriminate|].
  destruct (split sep s); discriminate.
Qed.

Lemma join_cons (sep p : jsstring) (ps : list jsstring) :
  ps <> [] -> join sep (p :: ps) = p ++ sep ++ join sep ps.
Proof. destruct ps; [congruence | reflexivity]. Qed.

(** [s.split(sep).join(sep)] is [s]. *)
Lemma join_split (sep : jschar) (s : jsstring) :
  join [sep] (split sep s) = s.
Proof.
  induction s as [|c s IH]; [reflexivity|].
  simpl split.
  pose proof (split_nonempty sep s) as Hne.
  destruct (N.eqb_spec c sep) as [->|Hc].
  - rewrite join_cons by exact Hne; rewrite IH; reflexivity.
  - destruct (split sep s) as [|p ps]; [congruence|].
    destruct ps as [|q ps]; simpl in *; congruence.
Qed.

Lemma join_app (sep : jsstring) (a b : list jsstring) :
  a <> [] -> b <> [] ->
  join sep (a ++ b) = join sep a ++ sep ++ join sep b.
Proof.
  intros Ha Hb; induction a as [|p a IH]; [congruence|].
  destruct a as [|q a].
  - simpl app; rewrite join_cons by exact Hb; reflexivity.
  - change ((p :: q :: a) ++ b) with (p :: ((q :: a) ++ b)).
    rewrite join_cons by discriminate.
    rewrite IH by discriminate.
    rewrite (join_cons sep p (q :: a)) by discriminate.
    rewrite <- !app_assoc; reflexivity.
Qed.

(** A run of lines is a run of the text, between line breaks. *)
Lemma join_slice (lines : list jsstring) (s e : Z) :
  (0 <= s <= e)%Z -> (e < Z.of_nat (length lines))%Z ->
  exists before after : jsstring,
    join [nl] lines = before ++ join [nl] (slice lines s (e + 1)) ++ after /\
    (before = [] \/ exists b, before = b ++ [nl]) /\
    (after = [] \/ exists a, after = nl :: a).
Proof.
  intros Hs He; unfold slice.
  set (l1 := firstn (Z.to_nat s) lines).
  set (rest := skipn (Z.to_nat s) lines).
  set (mid := firstn (Z.to_nat (e + 1 - s)) rest).
  set (l2 := skipn (Z.to_nat (e + 1 - s)) rest).
  assert (E : lines = l1 ++ mid ++ l2).
  { unfold l1, mid, l2, rest; rewrite !firstn_skipn; reflexivity. }
  assert (Hmid : mid <> []).
  { intros H; apply (f_equal (@length _)) in H.
    unfold mid, rest in H; rewrite length_firstn, length_skipn in H.
    simpl in H; lia. }
  rewrite E.
  assert (Hx : forall (x : jsstring) l, x :: l <> []) by discriminate.
  destruct l1 as [|x l1], l2 as [|y l2].
  - exists [], []; rewrite !app_nil_r; auto.
  - exists [], (nl :: join [nl] (y :: l2)).
    rewrite !app_nil_l.
    rewrite (join_app [nl] mid (y :: l2) Hmid (Hx _ _)).
    split; [reflexivity|]. split; [auto | right; eauto].
  - exists (join [nl] (x :: l1) ++ [nl]), [].
    rewrite !app_nil_r.
    rewrite (join_app [nl] (x :: l1) mid (Hx _ _) Hmid).
    rewrite <- app_assoc.
    split; [reflexivity|]. split; [right; eauto | auto].
  - exists (join [nl] (x :: l1) ++ [nl]), (nl :: join [nl] (y :: l2)).
    assert (Hm2 : mid ++ y :: l2 <> []).
    { destruct mid; [congruence | discriminate]. }
    rewrite (join_app [nl] (x :: l1) _ (Hx _ _) Hm2).
    rewrite (join_app [nl] mid (y :: l2) Hmid (Hx _ _)).
    rewrite <- !app_assoc.
    split; [reflexivity|]. split; right; eauto.
Qed.

Section Verbatim.

Context {host : JsHost}.
Variable repoInfo : GitHubRepositoryInfo.
Variable file : GitHubFile.

(** X17. Joining the lines of a file with line breaks gives its text back,
    and the text of every class or function chunk is a run of whole lines of
    that text: it occurs in the file as it is, starting at the beginning of
    the file or after a line break and ending at the end of the file or
    before a line break. *)
Theorem createCodeChunks_verbatim :
  join [nl] (fileLines file) = File.content file /\
  Forall
    (fun c =>
       exists before after : jsstring,
         File.content file = before ++ Chunk.content c ++ after /\
         (before = [] \/ exists b, before = b ++ [nl]) /\
         (after = [] \/ exists a, after = nl :: a))
    (createCodeChunks repoInfo file).
Proof.
  split; [apply join_split|].
  eapply Forall_impl; [|apply createCodeChunks_ranged].
  intros c (_ & _ & s & e & _ & _ & Hs & He & ->).
  destruct (join_slice (fileLines file) s e Hs He) as (b & a & E & Hb & Ha).
  unfold fileLines in E at 1; rewrite join_split in E.
  exists b, a; auto.
Qed.

End Verbatim.

(** ** The binary check in binary64 arithmetic *)

(** X8. For every content shorter than [2^52] code units, the test
    [nonPrintable.length > content.length * 0.1], computed in binary64 with
    rounding to nearest, gives the same answer as the exact comparison of
    [10 * nonPrintable.length] with [content.length]: the rounding of the
    product never changes what [isLikelyBinary] returns. *)
Theorem isLikelyBinary_binary64 (content : jsstring) :
  (Z.of_nat (length content) < 2 ^ 52)%Z ->
  isLikelyBinary content =
  includes content [0%N] ||
  exceedsTenth_binary64 (length (filter isNonPrintable content))
    (length content).
Proof.
  intros Hlen; rewrite exceedsTenth_binary64_exact by exact Hlen.
  unfold isLikelyBinary, match_all_class.
  destruct (includes content [0%N]); [reflexivity|].
  destruct (filter isNonPrintable content) as [|c cs] eqn:E.
  - unfold exceedsTenth; simpl.
    symmetry; apply Nat.ltb_ge; lia.
  - rewrite length_map.
    destruct (exceedsTenth (length (c :: cs)) (length content)); reflexivity.
Qed.

(** ** More on the owner and name of a repository reference *)

Lemma split_no_sep (sep : jschar) (s : jsstring) :
  ~ In sep s -> split sep s = [s].
Proof.
  induction s as [|c s IH]; intros Hn; simpl; [reflexivity|].
  destruct (N.eqb_spec c sep) as [->|_]; [exfalso; apply Hn; left; reflexivity|].
  rewrite IH by (intros H; apply Hn; right; exact H); reflexivity.
Qed.

Lemma split_app_sep (sep : jschar) (a b : jsstring) :
  split sep (a ++ sep :: b) = split sep a ++ split sep b.
Proof.
  induction a as [|c a IH]; simpl.
  - rewrite N.eqb_refl; reflexivity.
  - rewrite IH.
    pose proof (split_nonempty sep a) as Hne.
    destruct (N.eqb c sep); [reflexivity|].
    destruct (split sep a) as [|p ps]; [congruence | reflexivity].
Qed.

(** The segments of [prefix/owner/name]. *)
Lemma split_owner_name (pre owner name : jsstring) :
  ~ In slash owner -> ~ In slash name ->
  exists segments : list jsstring,
    split slash (pre ++ slash :: owner ++ slash :: name) =
    segments ++ [owner; name].
Proof.
  intros Ho Hn.
  rewrite split_app_sep, split_app_sep.
  rewrite (split_no_sep slash owner Ho), (split_no_sep slash name Hn).
  exists (split slash pre); reflexivity.
Qed.

Lemma orElse_idem (a b : jsstring) : orElse (orElse a b) b = orElse a b.
Proof. destruct a, b; reflexivity. Qed.

(** The two outcomes of the resolution: nothing changes, or the empty
    fields are filled with values that depend on the URL only. *)
Lemma resolveRepoInfo_unfold (repoInfo : GitHubRepositoryInfo) :
  resolveRepoInfo repoInfo = repoInfo \/
  exists owner name : jsstring,
    (2 <=? length (split slash (Repo.url repoInfo)))%nat = true /\
    (Repo.owner repoInfo = [] \/ Repo.name repoInfo = []) /\
    resolveRepoInfo repoInfo =
    Repo.mk (Repo.url repoInfo) (orElse (Repo.owner repoInfo) owner)
      (orElse (Repo.name repoInfo) name) (Repo.branch repoInfo) /\
    forall r : GitHubRepositoryInfo,
      Repo.url r = Repo.url repoInfo ->
      resolveRepoInfo r = r \/
      resolveRepoInfo r =
      Repo.mk (Repo.url r) (orElse (Repo.owner r) owner)
        (orElse (Repo.name r) name) (Repo.branch r).
Proof.
  unfold resolveRepoInfo.
  destruct (2 <=? length (split slash (Repo.url repoInfo)))%nat eqn:Hlen.
  2:{ left; destruct (Repo.owner repoInfo), (Repo.name repoInfo); reflexivity. }
  destruct (pop (split slash (Repo.url repoInfo))) as [p1 parts1] eqn:E1.
  destruct (pop parts1) as [p2 parts2] eqn:E2.
  assert (Hgen : forall r : GitHubRepositoryInfo,
      Repo.url r = Repo.url repoInfo ->
      resolveRepoInfo r = r \/
      resolveRepoInfo r =
      Repo.mk (Repo.url r) (orElse (Repo.owner r) (orEmpty p2))
        (orElse (Repo.name r) (replace (orEmpty p1) (lit ".git") []))
        (Repo.branch r)).
  { intros r Hr; unfold resolveRepoInfo; rewrite Hr, Hlen, E1, E2.
    destruct (Repo.owner r), (Repo.name r); auto. }
  destruct (Repo.owner repoInfo) eqn:Eo, (Repo.name repoInfo) eqn:En;
    [right | right | right | left; reflexivity];
    exists (orEmpty p2), (replace (orEmpty p1) (lit ".git") []);
    (split; [reflexivity|]); (split; [auto|]); (split; [reflexivity | exact Hgen]).
Qed.

(** X9. What the constructor of [GitHubRepository] never does to the
    reference it is given: the URL and the branch stay as they are, an owner
    or a name that was supplied is kept, a URL without [/] changes nothing,
    and resolving a resolved reference changes nothing more. *)
Theorem resolveRepoInfo_keeps_supplied (repoInfo : GitHubRepositoryInfo) :
  Repo.url (resolveRepoInfo repoInfo) = Repo.url repoInfo /\
  Repo.branch (resolveRepoInfo repoInfo) = Repo.branch repoInfo /\
  (Repo.owner repoInfo <> [] ->
   Repo.owner (resolveRepoInfo repoInfo) = Repo.owner repoInfo) /\
  (Repo.name repoInfo <> [] ->
   Repo.name (resolveRepoInfo repoInfo) = Repo.name repoInfo) /\
  (~ In slash (Repo.url repoInfo) -> resolveRepoInfo repoInfo = repoInfo) /\
  resolveRepoInfo (resolveRepoInfo repoInfo) = resolveRepoInfo repoInfo.
Proof.
  destruct (resolveRepoInfo_unfold repoInfo)
    as [E | (o & n & Hlen & _ & E & Hgen)].
  { rewrite !E; repeat split; auto. }
  rewrite E; cbn [Repo.url Repo.owner Repo.name Repo.branch].
  split; [reflexivity|]. split; [reflexivity|].
  split; [destruct (Repo.owner repoInfo); [congruence | reflexivity]|].
  split; [destruct (Repo.name repoInfo); [congruence | reflexivity]|].
  split.
  - intros Hs; rewrite split_no_sep in Hlen by exact Hs; discriminate.
  - match goal with
    | |- resolveRepoInfo ?r = _ =>
        destruct (Hgen r eq_refl) as [E' | E']; [exact E'|]
    end.
    rewrite E'; cbn [Repo.url Repo.owner Repo.name Repo.branch].
    rewrite !orElse_idem; reflexivity.
Qed.

(** X10. For a reference without owner and name whose URL ends in
    [/owner/name], the owner is [owner] and the name is [name] after
    [replace('.git', '')]: [name] itself when [.git] does not occur in it,
    and [base] when [name] is [base.git] and that is the first [.git]. *)
Theorem resolveRepoInfo_from_url (pre owner name : jsstring)
    (branch : option jsstring) :
  ~ In slash owner -> ~ In slash name ->
  let url := pre ++ slash :: owner ++ slash :: name in
  resolveRepoInfo (Repo.mk url [] [] branch) =
    Repo.mk url owner (replace name (lit ".git") []) branch /\
  (includes name (lit ".git") = false ->
   replace name (lit ".git") [] = name) /\
  (forall base : jsstring,
      name = base ++ lit ".git" ->
      includes (base ++ lit ".gi") (lit ".git") = false ->
      replace name (lit ".git") [] = base).
Proof.
  intros Ho Hn url.
  destruct (split_owner_name pre owner name Ho Hn) as [segments Hs].
  split; [apply (resolveRepoInfo_derived url branch segments); exact Hs|].
  split; [apply replace_absent|].
  intros base -> Hb; apply replace_git_suffix; exact Hb.
Qed.

(** * The repository reader: [getAllFilePaths] and [getFiles] *)

Lemma existsb_str_eqb (s : jsstring) (l : list jsstring) :
  existsb (str_eqb s) l = true <-> In s l.
Proof.
  rewrite existsb_exists; split.
  - intros (x & Hin & E); apply str_eqb_eq in E; subst; exact Hin.
  - intros Hin; exists s; split; [exact Hin | apply str_eqb_refl].
Qed.

(** A file with the language [getFiles] detects is a programming file exactly
    when its extension has a [case] of its own or its text holds [<?php]. *)
Lemma detectLanguage_programming (path ext content : jsstring) (size : Z) :
  isProgrammingFile (File.mk path content (detectLanguage ext content) size)
  = true <->
  In ext caseExtensions \/ includes content (lit "<?php") = true.
Proof.
  rewrite <- existsb_str_eqb.
  unfold isProgrammingFile; cbn [File.language].
  unfold detectLanguage, caseExtensions; cbn [map existsb].
  change (fun e => str_eqb ext (lit e)) with (extIs ext).
  unfold extIs.
  repeat match goal with
         | |- context [str_eqb ext ?e] =>
             destruct (str_eqb ext e); cbn [orb];
             [split; [intros _; left; reflexivity | intros _; reflexivity]|]
         end.
  destruct (includes content (lit "<?php"));
    [split; [intros _; right; reflexivity | intros _; reflexivity]|].
  destruct (includes content (lit "<?xml"));
    [split; [discriminate | intros [H|H]; discriminate]|].
  destruct (includes content (lit "<!DOCTYPE html>") ||
            includes content (lit "<html>"));
    split; try discriminate; intros [H|H]; discriminate.
Qed.

Lemma Dirent_nested_ind (P : Dirent -> Prop) :
  (forall name, P (DirentFile name)) ->
  (forall name entries, Forall P entries -> P (DirentDir name entries)) ->
  forall entry, P entry.
Proof.
  intros Hfile Hdir.
  fix IH 1; intros [name | name entries].
  - apply Hfile.
  - apply Hdir.
    induction entries as [|e entries IHentries]; constructor.
    + apply IH.
    + exact IHentries.
Qed.

Section Walk.

Context {host : JsHost}.
Variable pathJoin : jsstring -> jsstring -> jsstring.
Variable relative : jsstring -> jsstring -> jsstring.
Variable readFile : jsstring -> option (jsstring * Z).

Lemma fold_visit_acc (dirPath : jsstring) (entries : list Dirent) :
  Forall (fun e => forall d results,
            visitEntry pathJoin d e results =
            results ++ visitEntry pathJoin d e []) entries ->
  forall results,
    getAllFilePaths pathJoin dirPath entries results =
    results ++ flat_map (fun e => visitEntry pathJoin dirPath e []) entries.
Proof.
  unfold getAllFilePaths.
  induction 1 as [|e entries He _ IH]; intros results; simpl.
  - symmetry; apply app_nil_r.
  - rewrite IH, He, app_assoc; reflexivity.
Qed.

Lemma visitEntry_acc (entry : Dirent) :
  forall d results,
    visitEntry pathJoin d entry results =
    results ++ visitEntry pathJoin d entry [].
Proof.
  induction entry as [name | name entries IH] using Dirent_nested_ind;
    intros d results; cbn [visitEntry direntName].
  - destruct (isIgnoredName name); [symmetry; apply app_nil_r | reflexivity].
  - destruct (isIgnoredName name); [symmetry; apply app_nil_r|].
    fold (getAllFilePaths pathJoin (pathJoin d name) entries results).
    fold (getAllFilePaths pathJoin (pathJoin d name) entries []).
    rewrite (fold_visit_acc _ entries IH results).
    rewrite (fold_visit_acc _ entries IH []); reflexivity.
Qed.

Lemma getAllFilePaths_flat_map (dirPath : jsstring) (entries : list Dirent)
    (results : list jsstring) :
  getAllFilePaths pathJoin dirPath entries results =
  results ++ flat_map (fun e => visitEntry pathJoin dirPath e []) entries.
Proof.
  apply fold_visit_acc, Forall_forall; intros e _; apply visitEntry_acc.
Qed.

Lemma Listed_one (dirPath : jsstring) (entries : list Dirent) (p : jsstring) :
  Listed pathJoin dirPath entries p <->
  exists e, In e entries /\ Listed pathJoin dirPath [e] p.
Proof.
  split.
  - intros H; inversion H; subst.
    + eexists; split; [eassumption|].
      apply Listed_file; [left; reflexivity | assumption].
    + eexists; split; [eassumption|].
      eapply Listed_dir; [left; reflexivity | assumption | eassumption].
  - intros (e & Hin & H); inversion H as [? ? ? Hi ? |? ? ? ? ? Hi]; subst;
      (destruct Hi as [Hi | []]); subst e.
    + apply Listed_file; assumption.
    + eapply Listed_dir; eassumption.
Qed.

Lemma visitEntry_Listed (entry : Dirent) :
  forall d p,
    In p (visitEntry pathJoin d entry []) <-> Listed pathJoin d [entry] p.
Proof.
  induction entry as [name | name entries IH] using Dirent_nested_ind;
    intros d p; cbn [visitEntry direntName].
  - destruct (isIgnoredName name) eqn:Hig; simpl; split.
    + intros [].
    + intros H; inversion H as [? ? ? Hi Hn |? ? ? ? ? Hi Hn]; subst;
        destruct Hi as [E | []]; [injection E as <-; congruence | discriminate].
    + intros [<- | []]; apply Listed_file; [left; reflexivity | exact Hig].
    + intros H; inversion H as [? ? ? Hi Hn |? ? ? ? ? Hi Hn]; subst;
        destruct Hi as [E | []]; [injection E as <-; auto | discriminate].
  - fold (getAllFilePaths pathJoin (pathJoin d name) entries []).
    rewrite getAllFilePaths_flat_map; cbn [app].
    assert (Hsub : In p (flat_map
                     (fun e => visitEntry pathJoin (pathJoin d name) e [])
                     entries) <->
                   Listed pathJoin (pathJoin d name) entries p).
    { rewrite in_flat_map, Listed_one.
      rewrite Forall_forall in IH.
      split; intros (e & Hin & H); exists e; (split; [exact Hin|]);
        apply (IH e Hin); exact H. }
    destruct (isIgnoredName name) eqn:Hig; split.
    + intros [].
    + intros H; inversion H as [? ? ? Hi Hn |? ? ? ? ? Hi Hn]; subst;
        destruct Hi as [E | []]; [discriminate | injection E as <- <-; congruence].
    + intros H; apply Hsub in H.
      eapply Listed_dir; [left; reflexivity | exact Hig | exact H].
    + intros H; apply Hsub.
      inversion H as [? ? ? Hi Hn |? ? ? ? ? Hi Hn Hl]; subst;
        destruct Hi as [E | []]; [discriminate | injection E as <- <-; exact Hl].
Qed.

Lemma getAllFilePaths_In_Listed (dirPath : jsstring) (entries : list Dirent)
    (p : jsstring) :
  In p (getAllFilePaths pathJoin dirPath entries []) <->
  Listed pathJoin dirPath entries p.
Proof.
  rewrite getAllFilePaths_flat_map; cbn [app].
  rewrite in_flat_map, Listed_one.
  split; intros (e & Hin & H); exists e; (split; [exact Hin|]);
    apply visitEntry_Listed; exact H.
Qed.

(** X11. [getAllFilePaths] appends to [results], in directory order and
    depth first, exactly the files reached through names other than [.git],
    [node_modules] and [dist]: nothing inside a directory of such a name is
    listed, at any depth, and neither is a plain file of such a name. *)
Theorem getAllFilePaths_lists (dirPath : jsstring) (entries : list Dirent) :
  (forall results,
      getAllFilePaths pathJoin dirPath entries results =
      results ++ getAllFilePaths pathJoin dirPath entries []) /\
  (forall p,
      In p (getAllFilePaths pathJoin dirPath entries []) <->
      Listed pathJoin dirPath entries p).
Proof.
  split.
  - intros results; rewrite (getAllFilePaths_flat_map _ _ []).
    apply getAllFilePaths_flat_map.
  - intros p; apply getAllFilePaths_In_Listed.
Qed.

Lemma fold_readInto (localPath : jsstring) (paths : list jsstring) :
  forall files,
    fold_left (readInto relative readFile localPath) paths files =
    files ++
    flat_map (fun p => readInto relative readFile localPath [] p) paths.
Proof.
  induction paths as [|p paths IH]; intros files; simpl.
  - symmetry; apply app_nil_r.
  - rewrite IH, app_assoc; f_equal.
    unfold readInto; destruct (readFile p) as [[content size]|];
      [reflexivity | symmetry; apply app_nil_r].
Qed.

(** Where each file of [getFiles] comes from. *)
Lemma getFiles_sources (localPath : jsstring) (root : list Dirent)
    (extensions : option (list jsstring)) :
  Forall
    (fun f =>
       exists (filePath content : jsstring) (size : Z),
         Listed pathJoin localPath root filePath /\
         readFile filePath = Some (content, size) /\
         f = File.mk (relative localPath filePath) content
               (detectLanguage (toLowerCase (extname filePath)) content)
               size /\
         (forall exts, extensions = Some exts ->
                       In (extname filePath) exts))
    (getFiles pathJoin relative readFile localPath root extensions).
Proof.
  unfold getFiles.
  set (filePaths := getAllFilePaths pathJoin localPath root []).
  apply Forall_forall; intros f Hf.
  rewrite fold_readInto in Hf; cbn [app] in Hf.
  apply in_flat_map in Hf as (p & Hp & Hf).
  unfold readInto in Hf.
  destruct (readFile p) as [[content size]|] eqn:Hr; [|destruct Hf].
  destruct Hf as [<- | []].
  exists p, content, size.
  assert (Hin : In p filePaths).
  { destruct extensions as [exts|]; [|exact Hp].
    apply filter_In in Hp as [Hp _]; exact Hp. }
  split; [apply getAllFilePaths_In_Listed; exact Hin|].
  split; [exact Hr|]. split; [reflexivity|].
  intros exts ->; apply filter_In in Hp as [_ Hp].
  apply existsb_str_eqb; exact Hp.
Qed.


(** X13. Which of the files of [getFiles] the chunker treats as programming
    files: those whose extension, lower-cased, has a [case] of its own in
    [getFiles], and those whose text holds [<?php].  The languages [xml] and
    [html] that [getFiles] also detects never lead to symbol chunks. *)
Theorem getFiles_programming_files (localPath : jsstring)
    (root : list Dirent) (extensions : option (list jsstring)) :
  Forall
    (fun f =>
       exists filePath : jsstring,
         Listed pathJoin localPath root filePath /\
         File.path f = relative localPath filePath /\
         (isProgrammingFile f = true <->
          In (toLowerCase (extname filePath)) caseExtensions \/
          includes (File.content f) (lit "<?php") = true))
    (getFiles pathJoin relative readFile localPath root extensions).
Proof.
  eapply Forall_impl; [|apply getFiles_sources].
  intros f (filePath & content & size & Hl & _ & -> & _).
  exists filePath; split; [exact Hl|]. split; [reflexivity|].
  apply detectLanguage_programming.
Qed.

End Walk.

(** * The indexing loop of [processRepository] *)

Lemma batchCount_spec (n j : nat) :
  (j < batchCount n)%nat <-> (100 * j < n)%nat.
Proof.
  unfold batchCount.
  pose proof (Nat.div_mod_eq (n + 99) 100) as H.
  pose proof (Nat.mod_upper_bound (n + 99) 100 ltac:(discriminate)) as Hm.
  lia.
Qed.

Lemma firstn_plus {A : Type} (a b : nat) (l : list A) :
  firstn (a + b) l = firstn a l ++ firstn b (skipn a l).
Proof.
  revert l; induction a as [|a IH]; intros [|x l]; simpl;
    rewrite ?firstn_nil; try reflexivity.
  rewrite IH; reflexivity.
Qed.

Section Loop.

Variable Doc Db : Type.
Variable indexDocuments : Db -> list Doc -> option (Z * Db).

Lemma indexLoop_sendBatches (documents : list Doc) (m : nat) :
  forall (j extra : nat) (indexedCount : Z) (db : Db),
    (j + m = batchCount (length documents))%nat ->
    indexLoop indexDocuments (m + extra) documents (100 * Z.of_nat j)
      indexedCount db =
    sendBatches indexDocuments
      (map (fun j => slice documents (100 * Z.of_nat j)
                       (100 * Z.of_nat j + 100)) (seq j m))
      indexedCount db.
Proof.
  induction m as [|m IH]; intros j extra cnt db Hj.
  - simpl seq; simpl map; simpl sendBatches; simpl plus.
    destruct extra as [|extra]; [reflexivity|].
    cbn [indexLoop].
    assert (Hge : ~ (100 * j < length documents)%nat).
    { rewrite <- batchCount_spec; lia. }
    destruct (Z.ltb_spec (100 * Z.of_nat j) (Z.of_nat (length documents)));
      [lia | reflexivity].
  - cbn [plus indexLoop seq map sendBatches].
    assert (Hlt : (100 * j < length documents)%nat).
    { apply batchCount_spec; lia. }
    destruct (Z.ltb_spec (100 * Z.of_nat j) (Z.of_nat (length documents)));
      [|lia].
    unfold batchSize.
    destruct (indexDocuments db _) as [[result db']|]; [|reflexivity].
    replace (100 * Z.of_nat j + 100)%Z with (100 * Z.of_nat (S j))%Z by lia.
    apply IH; lia.
Qed.

Lemma concat_batches_prefix (documents : list Doc) (k : nat) :
  concat (map (fun j => slice documents (100 * Z.of_nat j)
                          (100 * Z.of_nat j + 100)) (seq 0 k))
  = firstn (100 * k) documents.
Proof.
  induction k as [|k IH]; [reflexivity|].
  rewrite seq_S, map_app, concat_app, IH, Nat.add_0_l.
  cbn [map concat]; rewrite app_nil_r; unfold slice.
  replace (Z.to_nat (100 * Z.of_nat k + 100 - 100 * Z.of_nat k)) with 100%nat
    by lia.
  replace (Z.to_nat (100 * Z.of_nat k)) with (100 * k)%nat by lia.
  replace (100 * S k)%nat with (100 * k + 100)%nat by lia.
  symmetry; apply firstn_plus.
Qed.


Lemma batches_concat (documents : list Doc) :
  concat (batches documents) = documents.
Proof.
  unfold batches; rewrite concat_batches_prefix.
  apply firstn_all2.
  pose proof (proj2 (batchCount_spec (length documents)
                       (batchCount (length documents)))) as H.
  lia.
Qed.

Lemma batches_sizes (documents : list Doc) :
  Forall (fun batch => (1 <= length batch <= 100)%nat) (batches documents).
Proof.
  unfold batches; apply Forall_forall; intros batch Hb.
  apply in_map_iff in Hb as (j & <- & Hj).
  apply in_seq in Hj as [_ Hj]; simpl in Hj.
  apply batchCount_spec in Hj.
  unfold slice; rewrite length_firstn, length_skipn; lia.
Qed.

Lemma sendBatches_bounds (bs : list (list Doc)) :
  (forall db batch result db',
      indexDocuments db batch = Some (result, db') ->
      (0 <= result <= Z.of_nat (length batch))%Z) ->
  forall indexedCount db total db',
    sendBatches indexDocuments bs indexedCount db = Some (total, db') ->
    (indexedCount <= total <= indexedCount + Z.of_nat (length (concat bs)))%Z.
Proof.
  intros Hsink; induction bs as [|batch bs IH]; intros cnt db total db';
    cbn [sendBatches concat].
  - intros H; injection H as <- <-; simpl; lia.
  - destruct (indexDocuments db batch) as [[result db1]|] eqn:E;
      [|discriminate].
    intros H; apply IH in H; apply Hsink in E.
    rewrite length_app; lia.
Qed.

Lemma batchCount_le (n : nat) : (batchCount n <= n)%nat.
Proof.
  destruct (Nat.le_gt_cases (batchCount n) n) as [H | H]; [exact H|].
  apply batchCount_spec in H; lia.
Qed.

Lemma indexLoop_enough (documents : list Doc) (extra : nat) (db : Db) :
  indexLoop indexDocuments (batchCount (length documents) + extra)
    documents 0 0 db =
  sendBatches indexDocuments (batches documents) 0 db.
Proof.
  apply (indexLoop_sendBatches documents (batchCount (length documents))
           0 extra 0 db); reflexivity.
Qed.

Lemma indexAll_sendBatches (documents : list Doc) (db : Db) :
  indexAll indexDocuments documents db =
  sendBatches indexDocuments (batches documents) 0 db.
Proof.
  unfold indexAll.
  pose proof (batchCount_le (length documents)) as Hle.
  replace (length documents)
    with (batchCount (length documents) +
          (length documents - batchCount (length documents)))%nat at 1
    by lia.
  apply indexLoop_enough.
Qed.

Lemma batches_full (documents : list Doc) :
  Forall (fun batch => length batch = 100%nat)
    (removelast (batches documents)).
Proof.
  unfold batches.
  destruct (batchCount (length documents)) as [|k] eqn:Ek; [constructor|].
  rewrite seq_S, map_app; cbn [map].
  rewrite removelast_last.
  apply Forall_forall; intros batch Hb.
  apply in_map_iff in Hb as (j & <- & Hj).
  apply in_seq in Hj as [_ Hj]; simpl in Hj.
  assert (Hk : (k < batchCount (length documents))%nat) by lia.
  apply batchCount_spec in Hk.
  unfold slice; rewrite length_firstn, length_skipn; lia.
Qed.

(** X14. The indexing loop of [processRepository] calls [indexDocuments]
    once per batch, in order, adding up what the calls resolve to, and stops
    at the first call that throws.  The batches are consecutive slices of
    the documents: together they are the documents, none is empty, each has
    at most 100 documents and all but the last exactly 100.  Any number of
    iterations from the number of batches on gives this result. *)
Theorem processRepository_batches (documents : list Doc) (db : Db) :
  indexAll indexDocuments documents db =
    sendBatches indexDocuments (batches documents) 0 db /\
  (forall extra : nat,
      indexLoop indexDocuments (batchCount (length documents) + extra)
        documents 0 0 db =
      sendBatches indexDocuments (batches documents) 0 db) /\
  concat (batches documents) = documents /\
  length (batches documents) = batchCount (length documents) /\
  Forall (fun batch => (1 <= length batch <= 100)%nat) (batches documents) /\
  Forall (fun batch => length batch = 100%nat)
    (removelast (batches documents)).
Proof.
  split; [apply indexAll_sendBatches|].
  split; [intros extra; apply indexLoop_enough|].
  split; [apply batches_concat|].
  split; [unfold batches; rewrite length_map, length_seq; reflexivity|].
  split; [apply batches_sizes | apply batches_full].
Qed.

Lemma indexedCountOf_bounds (n : nat) (response : BulkResponse) :
  length (body_items response) = n ->
  (0 <= indexedCountOf n response <= Z.of_nat n)%Z.
Proof.
  intros Hn; unfold indexedCountOf.
  pose proof (filter_length_le (fun item : bool => item)
                (body_items response)) as Hle.
  destruct (body_errors response); lia.
Qed.

(** X15. When every call of [indexDocuments] resolves to the count
    [VectorDBClient.indexDocuments] computes from a bulk response with one
    item per document of the batch, the number [processRepository] returns
    lies between 0 and the number of documents; it is the number of
    documents when every call resolves to the size of its batch, as it does
    when no response reports errors. *)
Theorem processRepository_indexedCount (documents : list Doc) (db db' : Db)
    (total : Z) :
  indexAll indexDocuments documents db = Some (total, db') ->
  ((forall d batch result d',
       indexDocuments d batch = Some (result, d') ->
       exists response : BulkResponse,
         length (body_items response) = length batch /\
         result = indexedCountOf (length batch) response) ->
   (0 <= total <= Z.of_nat (length documents))%Z) /\
  ((forall d batch result d',
       indexDocuments d batch = Some (result, d') ->
       result = Z.of_nat (length batch)) ->
   total = Z.of_nat (length documents)).
Proof.
  rewrite indexAll_sendBatches; intros Hrun.
  assert (Hlen : length (concat (batches documents)) = length documents)
    by (rewrite batches_concat; reflexivity).
  split; intros Hsink.
  - apply (sendBatches_bounds (batches documents)) in Hrun; [lia|].
    intros d batch result d' E.
    apply Hsink in E as (response & Hl & ->).
    apply indexedCountOf_bounds; exact Hl.
  - rewrite <- Hlen; clear Hlen.
    revert Hrun; generalize (batches documents) as bs.
    assert (Hgen : forall bs cnt d,
      sendBatches indexDocuments bs cnt d = Some (total, db') ->
      total = (cnt + Z.of_nat (length (concat bs)))%Z).
    { induction bs as [|batch bs IH]; intros cnt d; cbn [sendBatches concat].
      - intros H; injection H as <- <-; simpl; lia.
      - destruct (indexDocuments d batch) as [[result d1]|] eqn:E;
          [|discriminate].
        intros H; apply IH in H; apply Hsink in E.
        rewrite length_app; lia. }
    intros bs H; apply Hgen in H; lia.
Qed.

End Loop.
(** ** The model on sample inputs *)

Example regex_function_line :
  option_map m_1 (regex_match (lit "function foo() {") functionPattern)
  = Some (Some (lit "foo")).
Proof. reflexivity. Qed.

(** The function pattern is a heuristic: a call or a condition matches too. *)
Example regex_condition_line :
  option_map m_1 (regex_match (lit "  if (x) {") functionPattern)
  = Some (Some (lit "if")).
Proof. reflexivity. Qed.

Example regex_class_line :
  option_map (fun m => (m_index m, m_1 m))
    (regex_match (lit "export class Foo extends Bar {") classPattern)
  = Some (7%nat, Some (lit "Foo")).
Proof. reflexivity. Qed.

Example regex_plain_line :
  regex_match (lit "  return 1;") functionPattern = None /\
  regex_match (lit "  return 1;") classPattern = None.
Proof. split; reflexivity. Qed.

Example closing_brace_lines :
  map (regex_test closingBracePattern) [lit "}"; lit "  } "; lit "};"; lit ""]
  = [true; true; false; false].
Proof. reflexivity. Qed.

Example posix_paths :
  map posix_basename [lit "docs/README.md"; lit "a/b/"; lit "x"]
  = [lit "README.md"; lit "b"; lit "x"] /\
  map posix_extname [lit "docs/README.md"; lit "a/.bashrc"; lit "a.b.c"]
  = [lit ".md"; []; lit ".c"].
Proof. split; reflexivity. Qed.

Example skipped_paths :
  map (fun p => shouldSkipFile (File.mk (lit p) (lit "x") None 1))
    [ "a/.git/config"; "node_modules/x.js"; "debug.log"; "debug.logs";
      "yarn.lock"; ".envrc"; "src/a.ts" ]%string
  = [true; true; true; false; true; false; false].
Proof. reflexivity. Qed.

Example processFiles_fooFile :
  processFiles (host := posixHost) exampleRepo [fooFile] =
  [ Chunk.mk fooSource FILE [BUG_FIXING]
      (Meta.mk exampleRepo (lit "src/foo.ts") (Some (lit "typescript"))
         None None None);
    fooChunk ].
Proof. reflexivity. Qed.

(** ** Instances of the properties on the example inputs

    The example inputs are run on [posixHost]. *)

#[local] Existing Instance posixHost.

Lemma processFiles_file_chunk_witness :
  exists chunk : CodeChunk,
    filter (hasType FILE) (processFiles exampleRepo [fooFile]) = [chunk] /\
    Chunk.type chunk = FILE /\
    Chunk.content chunk = File.content fooFile.
Proof.
  apply (processFiles_file_chunk exampleRepo [] [] fooFile).
  reflexivity.
Defined.

Lemma processFiles_summary_chunk_witness :
  exists chunk : CodeChunk,
    filter (hasType SUMMARY) (processFiles exampleRepo [readmeFile]) =
      [chunk] /\
    Chunk.type chunk = SUMMARY /\
    Chunk.content chunk = File.content readmeFile /\
    Chunk.useCases chunk = [EXPLANATION].
Proof.
  apply (processFiles_summary_chunk exampleRepo [] [] readmeFile).
  split; [reflexivity | left; reflexivity].
Defined.

Lemma processFiles_line_ranges_witness :
  (Chunk.type fooChunk = FILE \/ Chunk.type fooChunk = SUMMARY ->
   Meta.startLine (Chunk.metadata fooChunk) = None /\
   Meta.endLine (Chunk.metadata fooChunk) = None) /\
  (Chunk.type fooChunk = CLASS \/ Chunk.type fooChunk = FUNCTION ->
   exists (file : GitHubFile) (s e : Z),
     In file [fooFile] /\
     Meta.filePath (Chunk.metadata fooChunk) = File.path file /\
     Meta.startLine (Chunk.metadata fooChunk) = Some s /\
     Meta.endLine (Chunk.metadata fooChunk) = Some e /\
     (0 <= s <= e)%Z /\ (e < Z.of_nat (length (fileLines file)))%Z /\
     Chunk.content fooChunk = join [nl] (slice (fileLines file) s (e + 1))).
Proof.
  apply (processFiles_line_ranges exampleRepo [fooFile] fooChunk).
  right; left; reflexivity.
Defined.

Lemma symbol_detector_regression_witness :
  (exists chunk : CodeChunk,
     filter isSymbolChunk (processFiles exampleRepo [fooFile]) = [chunk] /\
     Chunk.type chunk = FUNCTION /\
     Meta.symbolName (Chunk.metadata chunk) = Some (lit "foo") /\
     Meta.startLine (Chunk.metadata chunk) = Some 0%Z /\
     Meta.endLine (Chunk.metadata chunk) = Some 2%Z) /\
  (exists chunk : CodeChunk,
     filter isSymbolChunk (processFiles exampleRepo [barFile]) = [chunk] /\
     Chunk.type chunk = CLASS /\
     Meta.symbolName (Chunk.metadata chunk) = Some (lit "Bar") /\
     Meta.startLine (Chunk.metadata chunk) = Some 0%Z /\
     Meta.endLine (Chunk.metadata chunk) = Some 1%Z).
Proof.
  split.
  - apply (symbol_detector_regression exampleRepo fooFile);
      reflexivity.
  - apply (symbol_detector_regression exampleRepo barFile);
      reflexivity.
Defined.

Lemma open_region_ends_at_last_line_witness :
  exists chunk : CodeChunk,
    createCodeChunks exampleRepo truncatedFile = [] ++ [chunk] /\
    processFiles exampleRepo [truncatedFile] =
      createFileChunks exampleRepo truncatedFile ++ [] ++ [chunk] /\
    Chunk.type chunk =
      match regex_match (lit "function foo() {") classPattern with
      | Some _ => CLASS
      | None => FUNCTION
      end /\
    Meta.startLine (Chunk.metadata chunk) = Some (Z.of_nat 0) /\
    Meta.endLine (Chunk.metadata chunk) =
      Some (Z.of_nat (length (fileLines truncatedFile)) - 1)%Z /\
    Chunk.content chunk = join [nl] (skipn 0 (fileLines truncatedFile)).
Proof.
  apply (open_region_ends_at_last_line exampleRepo truncatedFile 0
           (lit "function foo() {") []).
  - reflexivity.
  - reflexivity.
  - reflexivity.
  - reflexivity.
  - right; vm_compute; discriminate.
  - intros [|[|[|j]]] l Hj; vm_compute; intros Hl; try lia; try discriminate.
    injection Hl as <-; discriminate.
Defined.

Lemma createCodeChunks_needs_keyword_or_paren_witness :
  Forall (fun line =>
            ~ In (chr "(") line /\
            includes line (lit "class") = false /\
            includes line (lit "interface") = false)
    (fileLines notesFile) /\
  createCodeChunks exampleRepo notesFile = [].
Proof.
  assert (H : Forall (fun line =>
                        ~ In (chr "(") line /\
                        includes line (lit "class") = false /\
                        includes line (lit "interface") = false)
                (fileLines notesFile)).
  { repeat (constructor;
            [split;
             [vm_compute; intuition discriminate
             | split; reflexivity]|]).
    constructor. }
  split; [exact H|].
  apply (createCodeChunks_needs_keyword_or_paren exampleRepo notesFile H).
Defined.

Lemma isLikelyBinary_binary64_witness :
  (Z.of_nat (length (lit "a" ++ [7%N; 8%N])) < 2 ^ 52)%Z /\
  isLikelyBinary (lit "a" ++ [7%N; 8%N]) =
  includes (lit "a" ++ [7%N; 8%N]) [0%N] ||
  exceedsTenth_binary64
    (length (filter isNonPrintable (lit "a" ++ [7%N; 8%N])))
    (length (lit "a" ++ [7%N; 8%N])).
Proof.
  split; [reflexivity|].
  apply (isLikelyBinary_binary64 (lit "a" ++ [7%N; 8%N])); reflexivity.
Defined.

Lemma resolveRepoInfo_from_url_witness :
  ~ In slash (lit "octocat") /\ ~ In slash (lit "hello.git") /\
  resolveRepoInfo
    (Repo.mk (lit "https://github.com/octocat/hello.git") [] [] None) =
  Repo.mk (lit "https://github.com/octocat/hello.git")
    (lit "octocat") (lit "hello") None.
Proof.
  assert (Ho : ~ In slash (lit "octocat")).
  { vm_compute; intuition discriminate. }
  assert (Hn : ~ In slash (lit "hello.git")).
  { vm_compute; intuition discriminate. }
  split; [exact Ho|]. split; [exact Hn|].
  destruct (resolveRepoInfo_from_url (lit "https://github.com")
              (lit "octocat") (lit "hello.git") None Ho Hn)
    as (E & _ & Hbase).
  rewrite (Hbase (lit "hello") eq_refl eq_refl) in E.
  exact E.
Defined.

Lemma processRepository_indexedCount_witness :
  indexAll acceptAll (seq 0 250) tt = Some (250%Z, tt) /\
  (0 <= 250 <= Z.of_nat (length (seq 0 250)))%Z /\
  250%Z = Z.of_nat (length (seq 0 250)).
Proof.
  assert (Hrun : indexAll acceptAll (seq 0 250) tt = Some (250%Z, tt)).
  { vm_compute; reflexivity. }
  destruct (processRepository_indexedCount nat unit acceptAll (seq 0 250)
              tt tt 250%Z Hrun) as (Hbounds & Hall).
  split; [exact Hrun|]. split.
  - apply Hbounds; intros d batch result d' E.
    exists (mkBulkResponse false (map (fun _ => false) batch)).
    split; [apply length_map|].
    unfold acceptAll in E; injection E as <- _; reflexivity.
  - apply Hall; intros d batch result d' E.
    unfold acceptAll in E; injection E as <- _; reflexivity.
Defined.
